(** * Projection resolution, merging and assembly of the chart compiler

    A shallow embedding of
    - [src/compile/projection/parse.ts] (unit and composite projection
      parsing, the merge engine),
    - [src/compile/projection/assemble.ts] and [component.ts],
    - [src/projection.ts] (the fixed projection property list),
    - [src/compile/data/geopoint.ts] (the geographic point node),
    - [src/compile/model.ts] ([NameMap] and the name lookups of [Model]),
    and the properties of these functions. *)

From Stdlib Require Import ZArith Ascii.
From stdpp Require Import base option list strings gmap fin_maps pretty.

Local Open Scope string_scope.
Local Open Scope list_scope.

(** ** Property values *)

(** The values a projection property bag holds: JSON scalars, arrays, and
    the two reference objects [{signal: s}] and [{expr: s}].  Numbers are
    kept as integers; only their equality matters below. *)
#[local] Unset Elimination Schemes.
Inductive Value :=
| VNull
| VBool (b : bool)
| VNum (z : Z)
| VStr (s : string)
| VSignal (s : string)
| VExpr (s : string)
| VArr (l : list Value).
#[local] Set Elimination Schemes.

(** Modelled from the spec: [deepEqual] of [util.js] is not among the
    sources; the spec asks for "deeply equal values", which is structural
    comparison, element by element on arrays. *)
Fixpoint deepEqual (a b : Value) {struct a} : bool :=
  match a, b with
  | VNull, VNull => true
  | VBool x, VBool y => bool_decide (x = y)
  | VNum x, VNum y => bool_decide (x = y)
  | VStr x, VStr y => bool_decide (x = y)
  | VSignal x, VSignal y => bool_decide (x = y)
  | VExpr x, VExpr y => bool_decide (x = y)
  | VArr xs, VArr ys =>
      (fix go (xs ys : list Value) {struct xs} : bool :=
         match xs, ys with
         | [], [] => true
         | x :: xs', y :: ys' => deepEqual x y && go xs' ys'
         | _, _ => false
         end) xs ys
  | _, _ => false
  end.

(** JavaScript truthiness of a defined value ([if (v)], [!v]). *)
Definition truthy (v : Value) : bool :=
  match v with
  | VNull => false
  | VBool b => b
  | VNum z => negb (bool_decide (z = 0%Z))
  | VStr s => negb (bool_decide (s = ""))
  | VSignal _ | VExpr _ | VArr _ => true
  end.

(** A structural induction principle that reaches inside arrays. *)
Lemma Value_nested_ind (P : Value → Prop) :
  P VNull →
  (∀ b, P (VBool b)) →
  (∀ z, P (VNum z)) →
  (∀ s, P (VStr s)) →
  (∀ s, P (VSignal s)) →
  (∀ s, P (VExpr s)) →
  (∀ l, Forall P l → P (VArr l)) →
  ∀ v, P v.
Proof.
  intros Hnull Hbool Hnum Hstr Hsig Hexpr Harr.
  fix IH 1. intros [ | b | z | s | s | s | l].
  - exact Hnull.
  - apply Hbool.
  - apply Hnum.
  - apply Hstr.
  - apply Hsig.
  - apply Hexpr.
  - apply Harr. induction l as [ | x l IHl]; constructor.
    + apply IH.
    + exact IHl.
Qed.

Lemma deepEqual_eq (a b : Value) : deepEqual a b = true ↔ a = b.
Proof.
  revert b. induction a as [ | x | x | x | x | x | xs IH] using Value_nested_ind;
    intros [ | y | y | y | y | y | ys]; simpl;
    try (split; [intros ?; discriminate | intros ?; discriminate]);
    try (split; reflexivity);
    try (rewrite bool_decide_eq_true; split; [intros ->; reflexivity | intros [=]; assumption]).
  revert ys. induction IH as [ | x xs Hx Hxs IHxs]; intros [ | y ys].
  - split; reflexivity.
  - split; intros; discriminate.
  - split; intros; discriminate.
  - rewrite andb_true_iff, Hx. specialize (IHxs ys). rewrite IHxs.
    split.
    + intros [-> [=]]. subst. reflexivity.
    + intros [=]. subst. split; reflexivity.
Qed.

#[global] Instance Value_eq_dec : EqDecision Value.
Proof.
  intros a b. destruct (deepEqual a b) eqn:E.
  - left. apply deepEqual_eq, E.
  - right. intros H. apply deepEqual_eq in H. congruence.
Defined.

(** ** Name maps ([NameMap] of [model.ts]) *)

Module NameMap.

(** [private readonly map: Record<string, string>], created as [{}]: the
    own properties of the object.  The methods only ever store strings. *)
Abbreviation t := (gmap string string).

Definition empty : t := ∅.

(** An object created as [{}] inherits from [Object.prototype]; these are
    the names of its members (ECMAScript, the properties of the Object
    prototype object and its additional properties). *)
Definition OBJECT_PROTOTYPE : list string :=
  [ "constructor"; "hasOwnProperty"; "isPrototypeOf"; "propertyIsEnumerable";
    "toLocaleString"; "toString"; "valueOf"; "__proto__";
    "__defineGetter__"; "__defineSetter__"; "__lookupGetter__"; "__lookupSetter__" ].

Definition inherited (key : string) : bool := bool_decide (key ∈ OBJECT_PROTOTYPE).

(** What reading a property gives: a string stored by the class, or the
    member of [Object.prototype] of that name (a function; the prototype
    object itself for [__proto__]). *)
Inductive Member :=
| Own (value : string)
| Inherited (key : string).

#[global] Instance Member_eq_dec : EqDecision Member.
Proof. solve_decision. Defined.

(** [this.map[key]]: the own property if there is one, else the inherited
    member; [None] is [undefined]. *)
Definition read (m : t) (key : string) : option Member :=
  match m !! key with
  | Some value => Some (Own value)
  | None => if inherited key then Some (Inherited key) else None
  end.

(** Truthiness of [this.map[key]]: a string is truthy unless empty, a
    function or object is truthy, [undefined] is not. *)
Definition truthyMember (v : option Member) : bool :=
  match v with
  | Some (Own value) => negb (bool_decide (value = ""))
  | Some (Inherited _) => true
  | None => false
  end.

(** [this.map[key] = value] for a string [value]: an own property is
    written, except that [__proto__], when it is not an own property, goes
    to the setter inherited from [Object.prototype], which ignores a
    string. *)
Definition write (m : t) (key value : string) : t :=
  if bool_decide (key = "__proto__") && bool_decide (m !! key = None)
  then m
  else <[key := value]> m.

(** [has(key)]: [key in this.map], which also sees inherited members. *)
Definition has (m : t) (key : string) : bool :=
  bool_decide (is_Some (m !! key)) || inherited key.

(** [get(key)]: [this.map[key]]. *)
Definition get (m : t) (key : string) : option Member := read m key.

(** [set(key, value)]: [this.map[key] = value]. *)
Definition set (m : t) (key value : string) : t := write m key value.

(** [rename(oldName, newName)]: [this.map[oldName] = newName] only if
    [this.map[oldName]] is truthy. *)
Definition rename (m : t) (oldName newName : string) : t :=
  if truthyMember (read m oldName) then write m oldName newName else m.

(** The result of [get] where the code goes on with it as the [string]
    its signature declares.  The model reads the maps under keys made by
    [getName], which are never names of inherited members (lemmas
    [getName_projection_own] and [getName_size_own]), so that an inherited
    member does not arise there. *)
Definition asString (v : option Member) : option string :=
  match v with
  | Some (Own value) => Some value
  | _ => None
  end.

End NameMap.

(** ** Property bags, component splits and projection components *)

(** A JavaScript object used as a property bag. *)
Abbreviation Bag := (gmap string Value).

(** [hasOwnProperty(object, property)] of vega-util. *)
Definition hasOwnProperty (o : Bag) (prop : string) : bool :=
  bool_decide (is_Some (o !! prop)).

(** Modelled from the spec: [every] of [util.js] is not among the sources;
    it holds when the callback holds of every element, stopping at the
    first element where it fails. *)
Fixpoint every {A : Type} (arr : list A) (f : A → bool) : bool :=
  match arr with
  | [] => true
  | a :: rest => if f a then every rest f else false
  end.

(** [deepEqual] on values that may be [undefined] ([None]). *)
Definition deepEqualU (a b : option Value) : bool :=
  match a, b with
  | Some x, Some y => deepEqual x y
  | None, None => true
  | _, _ => false
  end.

(** [PROJECTION_PROPERTIES] of [projection.ts]. *)
Definition PROJECTION_PROPERTIES : list string :=
  [ "type"; "clipAngle"; "clipExtent"; "center"; "rotate"; "precision";
    "reflectX"; "reflectY"; "coefficient"; "distance"; "fraction"; "lobes";
    "parallel"; "radius"; "ratio"; "spacing"; "tilt" ].

(** What [getSizeSignalRef] returns: [null] or [{signal: s}], where [s] is
    [undefined] when the signal name map has no entry. *)
Inductive SizeRef :=
| SizeNull
| SizeSignal (signal : option string).

#[global] Instance SizeRef_eq_dec : EqDecision SizeRef.
Proof. solve_decision. Defined.

(** An entry of a fit-data list: [SignalRef | string]. *)
Inductive DataRef :=
| DataSignal (signal : string)
| DataName (name : string).

#[global] Instance DataRef_eq_dec : EqDecision DataRef.
Proof. solve_decision. Defined.

(** [ProjectionComponent extends Split<VgProjection>] ([component.ts]).
    [explicit] and [implicit] are the two layers of the split; [size] and
    [data] are [None] when [undefined]. *)
Record ProjectionComponent := mkProjectionComponent {
  explicit : Bag;
  implicit : Bag;
  specifiedProjection : Bag;
  size : option (list SizeRef);
  data : option (list DataRef);
  merged : bool
}.

#[global] Instance ProjectionComponent_eq_dec : EqDecision ProjectionComponent.
Proof. solve_decision. Defined.

(** The constructor: [super({...specifiedProjection}, {name})], with
    [merged = false]. *)
Definition newProjectionComponent (name : string) (specified : Bag)
    (size : option (list SizeRef)) (data : option (list DataRef)) : ProjectionComponent :=
  {| explicit := specified;
     implicit := {[ "name" := VStr name ]};
     specifiedProjection := specified;
     size := size;
     data := data;
     merged := false |}.

(** [get isFit()]: [!!this.data]; an array, even an empty one, is truthy. *)
Definition isFit (c : ProjectionComponent) : bool :=
  bool_decide (is_Some (data c)).

Module Split.

(** Modelled from the spec: the class [Split] of [split.js] is not among
    the sources.  [get(key)] returns [explicit[key]] if present, else
    [implicit[key]]. *)
Definition get (c : ProjectionComponent) (key : string) : option Value :=
  match explicit c !! key with
  | Some v => Some v
  | None => implicit c !! key
  end.

(** Modelled from the spec: [set(key, value, isExplicit)] writes into the
    corresponding layer. *)
Definition set (c : ProjectionComponent) (key : string) (value : Value)
    (isExplicit : bool) : ProjectionComponent :=
  if isExplicit
  then mkProjectionComponent (<[key := value]> (explicit c)) (implicit c)
         (specifiedProjection c) (size c) (data c) (merged c)
  else mkProjectionComponent (explicit c) (<[key := value]> (implicit c))
         (specifiedProjection c) (size c) (data c) (merged c).

(** Modelled from the spec: [combine()] merges the two layers into one
    bag; an implicit value never overrides an explicit one. *)
Definition combine (c : ProjectionComponent) : Bag :=
  explicit c ∪ implicit c.

End Split.

(** ** The merge test ([mergeIfNoConflict] of [parse.ts]) *)

(** The callback of [every(PROJECTION_PROPERTIES, ...)]. *)
Definition propertyShared (first second : ProjectionComponent) (prop : string) : bool :=
  if negb (hasOwnProperty (explicit first) prop) && negb (hasOwnProperty (explicit second) prop)
  then true
  else if hasOwnProperty (explicit first) prop
          && hasOwnProperty (explicit second) prop
          && deepEqualU (Split.get first prop) (Split.get second prop)
  then true
  else false.

Definition allPropertiesShared (first second : ProjectionComponent) : bool :=
  every PROJECTION_PROPERTIES (propertyShared first second).

(** Which of its two arguments [mergeIfNoConflict] returns. *)
Inductive Side := First | Second.

#[global] Instance Side_eq_dec : EqDecision Side.
Proof. solve_decision. Defined.

Definition pick (s : Side) (first second : ProjectionComponent) : ProjectionComponent :=
  match s with First => first | Second => second end.

(** The body of [mergeIfNoConflict], returning the side whose object is
    returned; [None] is [null].  [deepEqual(first.size, second.size)] and
    [deepEqual(x.explicit, {})] are equality tests on the embedded data. *)
Definition mergeIfNoConflict_side (first second : ProjectionComponent) : option Side :=
  let size := bool_decide (size first = size second) in
  if size then
    if allPropertiesShared first second then Some First
    else if bool_decide (explicit first = ∅) then Some Second
    else if bool_decide (explicit second = ∅) then Some First
    else None
  else None.

Definition mergeIfNoConflict (first second : ProjectionComponent) : option ProjectionComponent :=
  (λ s, pick s first second) <$> mergeIfNoConflict_side first second.

(** The condition of the merge rule as the specification words it: every
    property of the fixed set is either explicit on neither side, or
    explicit on both with equal values. *)
Definition propertiesAgree (A B : ProjectionComponent) : Prop :=
  ∀ prop, prop ∈ PROJECTION_PROPERTIES →
    (explicit A !! prop = None ∧ explicit B !! prop = None)
    ∨ (∃ v, explicit A !! prop = Some v ∧ explicit B !! prop = Some v).

(** ** Exceptions *)

(** The two ways the modelled code can throw: a JavaScript [TypeError]
    (a property read on [undefined] or [null]) and the explicit
    [throw new Error(...)] of the projection assembler. *)
Inductive Error :=
| TypeError
| FitSourceMissing.

#[global] Instance Error_eq_dec : EqDecision Error.
Proof. solve_decision. Defined.

Inductive result (A : Type) :=
| Ok (a : A)
| Throw (e : Error).
Arguments Ok {A} a.
Arguments Throw {A} e.

#[global] Instance result_bind : MBind result :=
  λ A B k r, match r with
             | Ok a => k a
             | Throw e => Throw e
             end.

#[global] Instance result_ret : MRet result := λ A a, Ok a.

(** ** Strings *)

(** [arr.join(sep)]. *)
Fixpoint join (sep : string) (l : list string) : string :=
  match l with
  | [] => ""
  | [x] => x
  | x :: rest => x +:+ sep +:+ join sep rest
  end.

(** Conversion of a value to a string, as a template literal or a
    property key does it; [None] is [undefined]. *)
Fixpoint toStringValue (v : Value) : string :=
  match v with
  | VNull => "null"
  | VBool true => "true"
  | VBool false => "false"
  | VNum z => pretty z
  | VStr s => s
  | VSignal _ | VExpr _ => "[object Object]"
  | VArr l =>
      join "," (map (λ x, match x with VNull => "" | _ => toStringValue x end) l)
  end.

Definition toStringU (v : option Value) : string :=
  match v with
  | Some x => toStringValue x
  | None => "undefined"
  end.

Definition truthyU (v : option Value) : bool :=
  match v with
  | Some x => truthy x
  | None => false
  end.

Definition isDigit (c : ascii) : bool :=
  let n := nat_of_ascii c in (48 <=? n)%nat && (n <=? 57)%nat.

Definition isWordChar (c : ascii) : bool :=
  let n := nat_of_ascii c in
  isDigit c || ((65 <=? n)%nat && (n <=? 90)%nat)
  || ((97 <=? n)%nat && (n <=? 122)%nat) || (n =? 95)%nat.

Fixpoint replaceNonWord (s : string) : string :=
  match s with
  | EmptyString => EmptyString
  | String c rest =>
      String (if isWordChar c then c else "_"%char) (replaceNonWord rest)
  end.

(** Modelled from the spec: [varName] of [util.js] is not among the
    sources; it is the "name-sanitizing formatter turning arbitrary
    path-derived text into an identifier-safe token": every character
    outside letters, digits and the underscore becomes an underscore, and a
    leading digit is shielded by an underscore. *)
Definition varName (s : string) : string :=
  (match s with
   | String c _ => if isDigit c then "_" else ""
   | EmptyString => ""
   end) +:+ replaceNonWord s.

(** ** Models ([model.ts], [unit.ts]) *)

(** A channel definition of a normalized encoding. *)
Inductive ChannelDef :=
| FieldDef (field : string) (type : string)
| DatumDef (datum : Value)
| ValueDef (value : Value).

#[global] Instance ChannelDef_eq_dec : EqDecision ChannelDef.
Proof. solve_decision. Defined.

Abbreviation Encoding := (gmap string ChannelDef).

Definition LATITUDE := "latitude".
Definition LONGITUDE := "longitude".
Definition LATITUDE2 := "latitude2".
Definition LONGITUDE2 := "longitude2".
Definition SHAPE := "shape".
Definition GEOSHAPE := "geoshape".
Definition GEOJSON := "geojson".

(** [keys(GEO_POSIITON_CHANNEL_INDEX)] of [channel.ts]. *)
Definition GEOPOSITION_CHANNELS : list string :=
  [LONGITUDE; LONGITUDE2; LATITUDE; LATITUDE2].

(** Modelled from the spec: the accessors of [channeldef.js] are not among
    the sources; they answer "does this channel carry a field / a constant
    / a signal-backed value?". *)
Definition isFieldDef (d : option ChannelDef) : bool :=
  match d with Some (FieldDef _ _) => true | _ => false end.

Definition isDatumDef (d : option ChannelDef) : bool :=
  match d with Some (DatumDef _) => true | _ => false end.

Definition isValueDef (d : option ChannelDef) : bool :=
  match d with Some (ValueDef _) => true | _ => false end.

Definition isFieldOrDatumDef (d : option ChannelDef) : bool :=
  isFieldDef d || isDatumDef d.

Definition getFieldOrDatumDef (d : option ChannelDef) : option ChannelDef :=
  if isFieldOrDatumDef d then d else None.

(** The state every model carries: its name, [component.projection],
    the projection and signal name maps, and of [component.data] the
    output nodes (name to source) and their reference counts. *)
Record Node := mkNode {
  name : string;
  projection : option ProjectionComponent;
  projectionNameMap : gmap string string;
  signalNameMap : gmap string string;
  outputNodes : gmap string string;
  outputNodeRefCounts : gmap string nat
}.

#[global] Instance Node_eq_dec : EqDecision Node.
Proof. solve_decision. Defined.

Definition setProjection (n : Node) (p : option ProjectionComponent) : Node :=
  mkNode (name n) p (projectionNameMap n) (signalNameMap n) (outputNodes n)
    (outputNodeRefCounts n).

Definition setProjectionNameMap (n : Node) (m : gmap string string) : Node :=
  mkNode (name n) (projection n) m (signalNameMap n) (outputNodes n)
    (outputNodeRefCounts n).

Definition setOutputNodeRefCounts (n : Node) (c : gmap string nat) : Node :=
  mkNode (name n) (projection n) (projectionNameMap n) (signalNameMap n)
    (outputNodes n) c.

(** What a unit model has on top: mark, encoding, the projection of the
    specification and of the configuration ([None] when [undefined]), and
    the outcome of the facet branch of [getSizeSignalRef] for each of the
    two layout sizes ([None] when that branch is not taken). *)
Record UnitSpec := mkUnitSpec {
  mark : string;
  encoding : Encoding;
  unitSpecifiedProjection : option Bag;
  configProjection : option Bag;
  facetWidthRef : option SizeRef;
  facetHeightRef : option SizeRef
}.

#[global] Instance UnitSpec_eq_dec : EqDecision UnitSpec.
Proof. solve_decision. Defined.

Inductive CompositeType := Facet | Layer | Concat.

#[global] Instance CompositeType_eq_dec : EqDecision CompositeType.
Proof. solve_decision. Defined.

#[local] Unset Elimination Schemes.
Inductive Model :=
| UnitModel (n : Node) (u : UnitSpec)
| CompositeModel (ty : CompositeType) (n : Node) (children : list Model).
#[local] Set Elimination Schemes.

Definition node (m : Model) : Node :=
  match m with
  | UnitModel n _ => n
  | CompositeModel _ n _ => n
  end.

Definition withNode (m : Model) (n : Node) : Model :=
  match m with
  | UnitModel _ u => UnitModel n u
  | CompositeModel ty _ cs => CompositeModel ty n cs
  end.


(** [getName(text)]. *)
Definition getName (n : Node) (text : string) : string :=
  varName ((if bool_decide (name n = "") then "" else name n +:+ "_") +:+ text).

(** The last character of a string, if it has one. *)
Fixpoint lastChar (s : string) : option ascii :=
  match s with
  | EmptyString => None
  | String c rest =>
      match rest with
      | EmptyString => Some c
      | String _ _ => lastChar rest
      end
  end.

(** [projectionName(true)], the parse-time branch. *)
Definition parseProjectionName (n : Node) : string := getName n "projection".

(** [projectionName()], the lookup through the name map.  The key is
    [getName('projection')], which is no name of an inherited member, so
    that [get] gives a string of the map or [undefined]. *)
Definition projectionName (n : Node) : option string :=
  if match projection n with
     | Some c => negb (merged c)
     | None => false
     end
     || NameMap.has (projectionNameMap n) (getName n "projection")
  then NameMap.asString (NameMap.get (projectionNameMap n) (getName n "projection"))
  else None.

(** [renameProjection(oldName, newName)]. *)
Definition renameProjection (n : Node) (oldName newName : string) : Node :=
  setProjectionNameMap n (NameMap.rename (projectionNameMap n) oldName newName).

(** [requestDataName(DataSourceType.Main)]: the full name, and the node
    with the reference count of that name incremented. *)
Definition requestDataName_Main (n : Node) : string * Node :=
  let fullName := getName n "main" in
  let refCounts := outputNodeRefCounts n in
  (fullName,
   setOutputNodeRefCounts n
     (<[fullName := (default 0 (refCounts !! fullName) + 1)%nat]> refCounts)).

(** [lookupDataSource(name)]: the source of the output node of that name,
    or the name itself when there is no such node. *)
Definition lookupDataSource (n : Node) (name : string) : string :=
  match outputNodes n !! name with
  | None => name
  | Some source => source
  end.

Inductive LayoutSizeType := Width | Height.

(** [getSizeSignalRef(layoutSizeType)]: the facet branch when it returns,
    else [{signal: this.signalNameMap.get(this.getName(layoutSizeType))}],
    where the key is again no name of an inherited member. *)
Definition getSizeSignalRef (n : Node) (u : UnitSpec) (t : LayoutSizeType) : SizeRef :=
  match (match t with Width => facetWidthRef u | Height => facetHeightRef u end) with
  | Some r => r
  | None =>
      SizeSignal (NameMap.asString
                    (NameMap.get (signalNameMap n)
                       (getName n (match t with Width => "width" | Height => "height" end))))
  end.

(** [get hasProjection()] of [UnitModel]. *)
Definition hasProjection (u : UnitSpec) : bool :=
  let isGeoShapeMark := bool_decide (mark u = GEOSHAPE) in
  let hasGeoPosition :=
    existsb (λ channel, isFieldOrDatumDef (encoding u !! channel)) GEOPOSITION_CHANNELS in
  isGeoShapeMark || hasGeoPosition.

(** ** Parsing the projection of a unit model ([parse.ts]) *)

(** [signalRefOrValue]: an expression reference becomes a signal
    reference. *)
Definition signalRefOrValue (v : Value) : Value :=
  match v with
  | VExpr e => VSignal e
  | _ => v
  end.

(** Modelled from the spec: [replaceExprRef] of [expr.js] is not among the
    sources; it rewrites the expression references among the values of a
    property bag into signal references and keeps the keys. *)
Definition replaceExprRef (index : option Bag) : option Bag :=
  (λ b : Bag, signalRefOrValue <$> b) <$> index.

(** Truthiness of an object reference that may be [undefined]. *)
Definition defined {A : Type} (o : option A) : bool :=
  match o with
  | Some _ => true
  | None => false
  end.

(** An object spread [{...o}] of a bag that may be [undefined]. *)
Definition spread (o : option Bag) : Bag := default ∅ o.

(** [v != null] on a property read: neither [undefined] nor [null]. *)
Definition notNullish (v : option Value) : bool :=
  match v with
  | None | Some VNull => false
  | Some _ => true
  end.

(** [channelHasField(channel)] of [UnitModel]. *)
Definition channelHasField (u : UnitSpec) (channel : string) : bool :=
  isFieldDef (encoding u !! channel).

(** [typedFieldDef(channel).type]; every field definition of a normalized
    encoding is typed. *)
Definition typedFieldDefType (u : UnitSpec) (channel : string) : option string :=
  match encoding u !! channel with
  | Some (FieldDef _ type) => Some type
  | _ => None
  end.

(** [gatherFitData(model)]: the list of fit-data references, and the node
    after the reference count side effect of [requestDataName]. *)
Definition gatherFitData (n : Node) (u : UnitSpec) : list DataRef * Node :=
  let data : list DataRef := [] in
  let data :=
    foldl (λ (data : list DataRef) (posssiblePair : string * string),
             if defined (getFieldOrDatumDef (encoding u !! posssiblePair.1))
                || defined (getFieldOrDatumDef (encoding u !! posssiblePair.2))
             then data ++ [DataSignal (getName n ("geojson_" +:+ pretty (length data)))]
             else data)
          data [(LONGITUDE, LATITUDE); (LONGITUDE2, LATITUDE2)] in
  let data :=
    if channelHasField u SHAPE && bool_decide (typedFieldDefType u SHAPE = Some GEOJSON)
    then data ++ [DataSignal (getName n ("geojson_" +:+ pretty (length data)))]
    else data in
  if bool_decide (length data = 0%nat)
  then let '(fullName, n') := requestDataName_Main n in (data ++ [DataName fullName], n')
  else (data, n).

(** [parseUnitProjection(model)]: the component ([None] is [undefined])
    and the node after the side effects. *)
Definition parseUnitProjection (n : Node) (u : UnitSpec) : option ProjectionComponent * Node :=
  if hasProjection u then
    let proj := replaceExprRef (unitSpecifiedProjection u) in
    let fit :=
      negb (match proj with
            | Some p => notNullish (p !! "scale") || notNullish (p !! "translate")
            | None => false
            end) in
    let size :=
      if fit then Some [getSizeSignalRef n u Width; getSizeSignalRef n u Height] else None in
    let '(data, n') :=
      if fit then let '(d, n') := gatherFitData n u in (Some d, n') else (None, n) in
    let projComp :=
      newProjectionComponent (parseProjectionName n)
        (spread proj ∪ spread (replaceExprRef (configProjection u))) size data in
    let projComp :=
      if negb (truthyU (Split.get projComp "type"))
      then Split.set projComp "type" (VStr "equalEarth") false
      else projComp in
    (Some projComp, n')
  else (None, n).

(** ** Parsing the projection of a composite model ([parse.ts]) *)

(** Modelled from the spec: [duplicate] of [util.js] is not among the
    sources; it is a deep copy, the identity on embedded data. *)
Definition duplicate {A : Type} (x : A) : A := x.

(** The mutations of the promotion loop, in the order they are made; the
    number is the index of the child. *)
Inductive Event :=
| EvPushData (child : nat) (d : list DataRef)
| EvRename (child : nat) (oldName newName : string)
| EvMerged (child : nat).

#[global] Instance Event_eq_dec : EqDecision Event.
Proof. solve_decision. Defined.

Definition setMerged (c : ProjectionComponent) (b : bool) : ProjectionComponent :=
  mkProjectionComponent (explicit c) (implicit c) (specifiedProjection c)
    (size c) (data c) b.

Definition setData (c : ProjectionComponent) (d : option (list DataRef)) : ProjectionComponent :=
  mkProjectionComponent (explicit c) (implicit c) (specifiedProjection c)
    (size c) d (merged c).

(** The callback of [every(model.children, ...)] together with the variable
    [nonUnitProjection] it assigns: the final value of the variable and the
    result of [every], which stops at the first failed merge. *)
Fixpoint mergableEvery (nonUnitProjection : option ProjectionComponent)
    (children : list Model) : option ProjectionComponent * bool :=
  match children with
  | [] => (nonUnitProjection, true)
  | child :: rest =>
      match projection (node child) with
      | None => mergableEvery nonUnitProjection rest
      | Some projection =>
          match nonUnitProjection with
          | None => mergableEvery (Some projection) rest
          | Some acc =>
              match mergeIfNoConflict acc projection with
              | Some merge => mergableEvery (Some merge) rest
              | None => (nonUnitProjection, false)
              end
          end
      end
  end.

(** [modelProjection.data.push(...d)]; [data] being [undefined] is a
    [TypeError]. *)
Definition pushData (modelProjection : ProjectionComponent) (d : list DataRef)
  : result ProjectionComponent :=
  match data modelProjection with
  | Some l => Ok (setData modelProjection (Some (l ++ d)))
  | None => Throw TypeError
  end.

(** The loop [for (const child of model.children)] of the promotion, from
    child index [i] on: the promoted component, the children after the
    loop, and the mutations made, in order. *)
Fixpoint promoteChildren (name : string) (i : nat) (children : list Model)
    (modelProjection : ProjectionComponent)
  : result (ProjectionComponent * list Model * list Event) :=
  match children with
  | [] => Ok (modelProjection, [], [])
  | child :: rest =>
      match projection (node child) with
      | None =>
          '(mp, rest', log) ← promoteChildren name (S i) rest modelProjection;
          Ok (mp, child :: rest', log)
      | Some projection =>
          '(mp1, log1) ←
            (if isFit projection
             then mp ← pushData modelProjection (default [] (data projection));
                  Ok (mp, [EvPushData i (default [] (data projection))])
             else Ok (modelProjection, []));
          let oldName := toStringU (Split.get projection "name") in
          let n1 := renameProjection (node child) oldName name in
          let n2 := setProjection n1 (Some (setMerged projection true)) in
          '(mp2, rest', log2) ← promoteChildren name (S i) rest mp1;
          Ok (mp2, withNode child n2 :: rest',
              log1 ++ [EvRename i oldName name; EvMerged i] ++ log2)
      end
  end.

(** The part of [parseNonUnitProjections] after the children have been
    parsed: the merge reduction and, if it succeeds, the promotion.  It
    gives the component of the model ([None] is [undefined]), the children
    as the promotion leaves them, and the mutations made. *)
Definition mergeChildProjections (n : Node) (children : list Model)
  : result (option ProjectionComponent * list Model * list Event) :=
  let '(nonUnitProjection, mergable) := mergableEvery None children in
  match nonUnitProjection with
  | Some acc =>
      if mergable then
        let name := parseProjectionName n in
        let modelProjection :=
          newProjectionComponent name (specifiedProjection acc) (size acc)
            (duplicate (data acc)) in
        '(mp, children', log) ← promoteChildren name 0 children modelProjection;
        Ok (Some mp, children', log)
      else Ok (None, children, [])
  | None => Ok (None, children, [])
  end.

(** [parseProjection(model)], with [parseUnitProjection] and
    [parseNonUnitProjections] dispatched on the kind of model: the model
    after [model.component.projection] has been assigned, children first. *)
Fixpoint parseProjection (m : Model) : result Model :=
  match m with
  | UnitModel n u =>
      let '(comp, n') := parseUnitProjection n u in
      Ok (UnitModel (setProjection n' comp) u)
  | CompositeModel ty n children =>
      match children with
      | [] => Ok (CompositeModel ty (setProjection n None) [])
      | _ =>
          children1 ←
            (fix parseAll (l : list Model) : result (list Model) :=
               match l with
               | [] => Ok []
               | child :: rest =>
                   child' ← parseProjection child;
                   rest' ← parseAll rest;
                   Ok (child' :: rest')
               end) children;
          '(comp, children2, _) ← mergeChildProjections n children1;
          Ok (CompositeModel ty (setProjection n comp) children2)
      end
  end.

(** The loop [for (const child of model.children) parseProjection(child)]. *)
Fixpoint parseChildren (l : list Model) : result (list Model) :=
  match l with
  | [] => Ok []
  | child :: rest =>
      child' ← parseProjection child;
      rest' ← parseChildren rest;
      Ok (child' :: rest')
  end.

(** ** Assembling projections ([assemble.ts]) *)

(** Modelled from the spec: [contains] of [util.js] is not among the
    sources; it tells whether an array has a given element. *)
Definition contains (arr : list string) (item : string) : bool :=
  bool_decide (item ∈ arr).

(** Modelled from the spec: [isSignalRef] of [vega.schema.js] is not among
    the sources; it recognises the signal reference among
    [string | SignalRef]. *)
Definition isSignalRef (d : DataRef) : bool :=
  match d with
  | DataSignal _ => true
  | DataName _ => false
  end.

(** The expression of one fit-data entry. *)
Definition fitSource (n : Node) (d : DataRef) : string :=
  match d with
  | DataSignal signal => signal
  | DataName nm => "data('" +:+ lookupDataSource n nm +:+ "')"
  end.

(** The [reduce] that builds [fits]: each source is pushed unless the list
    already contains it. *)
Definition fitSources (n : Node) (data : list DataRef) : list string :=
  foldl (λ (sources : list string) (d : DataRef),
           let source := fitSource n d in
           if negb (contains sources source) then sources ++ [source] else sources)
        [] data.

(** [fits.length > 1 ? `[${fits.join(', ')}]` : fits[0]], for a list that
    is not empty. *)
Definition fitExpression (fits : list string) : string :=
  if bool_decide (1 < length fits)%nat
  then "[" +:+ join ", " fits +:+ "]"
  else default "undefined" (head fits).

(** [component.size.map((ref) => ref.signal)]: reading [signal] of [null]
    is a [TypeError]. *)
Fixpoint sizeSignals (refs : list SizeRef) : result (list (option string)) :=
  match refs with
  | [] => Ok []
  | SizeNull :: _ => Throw TypeError
  | SizeSignal s :: rest => rest' ← sizeSignals rest; Ok (s :: rest')
  end.

(** [`[${signals.join(', ')}]`]; [join] renders [undefined] as the empty
    string. *)
Definition sizeExpression (signals : list (option string)) : string :=
  "[" +:+ join ", " (map (default "") signals) +:+ "]".

(** An object literal [{name, ...rest}] where [name] may be [undefined]. *)
Definition withName (name : option Value) (rest : Bag) : Bag :=
  match name with
  | Some v => <["name" := v]> rest
  | None => rest
  end.

(** [assembleProjectionForModel(model)].  The object spread [...projection]
    comes last, so the properties of the component win over [name],
    [translate], [size] and [fit]. *)
Definition assembleProjectionForModel (n : Node) : result (list Bag) :=
  match projection n with
  | None => Ok []
  | Some component =>
      if merged component then Ok []
      else
        let projection := Split.combine component in
        let name := projection !! "name" in
        match data component with
        | None =>
            Ok [ projection
                 ∪ withName name {[ "translate" := VSignal "[width / 2, height / 2]" ]} ]
        | Some data =>
            match size component with
            | None => Throw TypeError
            | Some refs =>
                signals ← sizeSignals refs;
                let size := VSignal (sizeExpression signals) in
                let fits := fitSources n data in
                if bool_decide (length fits ≤ 0)%nat then Throw FitSourceMissing
                else
                  Ok [ projection
                       ∪ withName name
                           (<["size" := size]>
                              {[ "fit" := VSignal (fitExpression fits) ]}) ]
            end
        end
  end.

(** [assembleProjections(model)]: a layer or concat model assembles its
    own projection and then those of its children, in order; any other
    model assembles its own only. *)
Fixpoint assembleProjections (m : Model) : result (list Bag) :=
  match m with
  | CompositeModel Layer n children
  | CompositeModel Concat n children =>
      own ← assembleProjectionForModel n;
      (fix reduce (projections : list Bag) (l : list Model) : result (list Bag) :=
         match l with
         | [] => Ok projections
         | child :: rest =>
             ps ← assembleProjections child;
             reduce (projections ++ ps) rest
         end) own children
  | CompositeModel Facet n _ => assembleProjectionForModel n
  | UnitModel n _ => assembleProjectionForModel n
  end.

(** The [reduce] over the children in [assembleProjectionsForModelAndChildren]. *)
Fixpoint assembleChildren (projections : list Bag) (l : list Model) : result (list Bag) :=
  match l with
  | [] => Ok projections
  | child :: rest =>
      ps ← assembleProjections child;
      assembleChildren (projections ++ ps) rest
  end.

(** ** The geographic point node ([geopoint.ts]) *)

(** One side of a coordinate pair: a field name or [{expr: e}]. *)
Inductive FieldRef :=
| FieldName (field : string)
| ExprRef (expr : string).

#[global] Instance FieldRef_eq_dec : EqDecision FieldRef.
Proof. solve_decision. Defined.

(** A data flow node: here the geographic point nodes and whatever node
    they are chained to.  [GeoPointNode] holds what its constructor
    receives: the parent, the projection name as a string, the field pair
    and the two output names. *)
#[local] Unset Elimination Schemes.
Inductive DataFlowNode :=
| OtherNode (id : string)
| GeoPointNode (parent : option DataFlowNode) (projection : string)
    (fields : option FieldRef * option FieldRef) (as_ : string * string).
#[local] Set Elimination Schemes.

(** The descriptor [assemble()] emits. *)
Record VgGeoPointTransform := mkVgGeoPointTransform {
  vg_type : string;
  vg_projection : string;
  vg_fields : option FieldRef * option FieldRef;
  vg_as : string * string
}.

Module GeoPoint.

(** The callback of [coordinates.map(...)] in [parseAll]. *)
Definition coordinate (u : UnitSpec) (channel : string) : option FieldRef :=
  let def := getFieldOrDatumDef (encoding u !! channel) in
  match def with
  | Some (FieldDef field _) => Some (FieldName field)
  | Some (DatumDef datum) => Some (ExprRef (toStringValue datum))
  | Some (ValueDef value) => Some (ExprRef (toStringValue value))
  | None => None
  end.

(** Truthiness of one side of the pair: [undefined] and the empty
    string are falsy, an object is truthy. *)
Definition truthyField (f : option FieldRef) : bool :=
  match f with
  | None => false
  | Some (FieldName field) => negb (bool_decide (field = ""))
  | Some (ExprRef _) => true
  end.

(** [GeoPointNode.parseAll(parent, model)]. *)
Definition parseAll (parent : DataFlowNode) (n : Node) (u : UnitSpec) : DataFlowNode :=
  match projectionName n with
  | None => parent
  | Some projection =>
      if bool_decide (projection = "") then parent
      else
        foldl (λ (parent : DataFlowNode) (coordinates : string * string),
                 let pair := (coordinate u coordinates.1, coordinate u coordinates.2) in
                 let suffix := if bool_decide (coordinates.1 = LONGITUDE2) then "2" else "" in
                 if truthyField pair.1 || truthyField pair.2
                 then GeoPointNode (Some parent) projection pair
                        (getName n ("x" +:+ suffix), getName n ("y" +:+ suffix))
                 else parent)
              parent [(LONGITUDE, LATITUDE); (LONGITUDE2, LATITUDE2)]
  end.

(** [assemble()]; only a geographic point node has this descriptor. *)
Definition assemble (d : DataFlowNode) : option VgGeoPointTransform :=
  match d with
  | GeoPointNode _ projection fields as_ =>
      Some (mkVgGeoPointTransform "geopoint" projection fields as_)
  | OtherNode _ => None
  end.

End GeoPoint.

(** ** The GeoJSON node ([geojson.ts]) *)

(** A transform descriptor [GeoJSONNode.assemble] emits: the filter on
    valid geometry, or the [geojson] transform; an absent key is [None]. *)
Inductive VgGeoJSONTransform :=
| VgFilter (expr : string)
| VgGeoJSON (fields : option (option FieldRef * option FieldRef))
    (geojson : option string) (signal : option string).

#[global] Instance VgGeoJSONTransform_eq_dec : EqDecision VgGeoJSONTransform.
Proof. solve_decision. Defined.

(** The data flow above some node: the GeoJSON nodes chained on it.
    [GeoJSONNode] holds what its constructor receives; [fields] and
    [geojson] are [None] when [null]. *)
#[local] Unset Elimination Schemes.
Inductive GeoJSONFlow :=
| Upstream (d : DataFlowNode)
| GeoJSONNode (parent : option GeoJSONFlow)
    (fields : option (option FieldRef * option FieldRef))
    (geojson : option string) (signal : option string).
#[local] Set Elimination Schemes.

Module GeoJSON.

(** [GeoJSONNode.parseAll(parent, model)].  The callback of
    [coordinates.map(...)] is the one of the geographic point node. *)
Definition parseAll (parent : GeoJSONFlow) (n : Node) (u : UnitSpec) : GeoJSONFlow :=
  if match projection n with
     | Some c => negb (isFit c)
     | None => false
     end
  then parent
  else
    let geoJsonCounter := 0%nat in
    let '(parent, geoJsonCounter) :=
      foldl (λ '(parent, geoJsonCounter) (coordinates : string * string),
               let pair := (GeoPoint.coordinate u coordinates.1,
                            GeoPoint.coordinate u coordinates.2) in
               if GeoPoint.truthyField pair.1 || GeoPoint.truthyField pair.2
               then (GeoJSONNode (Some parent) (Some pair) None
                       (Some (getName n ("geojson_" +:+ pretty geoJsonCounter))),
                     S geoJsonCounter)
               else (parent, geoJsonCounter))
            (parent, geoJsonCounter) [(LONGITUDE, LATITUDE); (LONGITUDE2, LATITUDE2)] in
    match encoding u !! SHAPE with
    | Some (FieldDef field type) =>
        if bool_decide (type = GEOJSON)
        then GeoJSONNode (Some parent) None (Some field)
               (Some (getName n ("geojson_" +:+ pretty geoJsonCounter)))
        else parent
    | _ => parent
    end.

(** Truthiness of a string that may be [null]. *)
Definition truthyString (s : option string) : bool :=
  match s with
  | Some x => negb (bool_decide (x = ""))
  | None => false
  end.

(** The string made of one double quote character. *)
Definition doubleQuote : string := String (ascii_of_nat 34) EmptyString.

(** [assemble()]: the filter [isValid(datum["field"])] comes first when
    there is a geojson field. *)
Definition assemble (d : GeoJSONFlow) : list VgGeoJSONTransform :=
  match d with
  | Upstream _ => []
  | GeoJSONNode _ fields geojson signal =>
      (if truthyString geojson
       then [VgFilter ("isValid(datum[" +:+ doubleQuote +:+ default "" geojson
                       +:+ doubleQuote +:+ "])")]
       else [])
      ++ [VgGeoJSON fields (if truthyString geojson then geojson else None) signal]
  end.

(** [dependentFields()]. *)
Definition dependentFields (d : GeoJSONFlow) : gset string :=
  match d with
  | Upstream _ => ∅
  | GeoJSONNode _ fields geojson _ =>
      list_to_set
        ((if truthyString geojson then [default "" geojson] else [])
         ++ match fields with
            | Some (a, b) =>
                omap (λ f, match f with Some (FieldName x) => Some x | _ => None end) [a; b]
            | None => []
            end)
  end.

(** The signals of the GeoJSON nodes of a flow, the one nearest to the
    upstream node first. *)
Fixpoint signals (d : GeoJSONFlow) : list (option string) :=
  match d with
  | Upstream _ => []
  | GeoJSONNode parent _ _ signal =>
      match parent with
      | Some p => signals p
      | None => []
      end ++ [signal]
  end.

(** The GeoJSON nodes of a flow, the last one built first. *)
Fixpoint nodes (d : GeoJSONFlow) : list GeoJSONFlow :=
  match d with
  | Upstream _ => []
  | GeoJSONNode parent _ _ _ =>
      d :: match parent with
           | Some p => nodes p
           | None => []
           end
  end.

End GeoJSON.

(** ** More methods of the geographic point node ([geopoint.ts]) *)

Module GeoPointNodes.

(** [clone()]: a node with the same projection, fields and output names,
    and no parent. *)
Definition clone (d : DataFlowNode) : DataFlowNode :=
  match d with
  | GeoPointNode _ projection fields as_ => GeoPointNode None projection fields as_
  | OtherNode id => OtherNode id
  end.

(** [dependentFields()]: the fields that are strings. *)
Definition dependentFields (d : DataFlowNode) : gset string :=
  match d with
  | GeoPointNode _ _ (a, b) _ =>
      list_to_set
        (omap (λ f, match f with Some (FieldName x) => Some x | _ => None end) [a; b])
  | OtherNode _ => ∅
  end.

(** [producedFields()]: the two output names. *)
Definition producedFields (d : DataFlowNode) : gset string :=
  match d with
  | GeoPointNode _ _ _ (x, y) => {[ x; y ]}
  | OtherNode _ => ∅
  end.

(** The geographic point nodes of a flow, the last one built first. *)
Fixpoint nodes (d : DataFlowNode) : list DataFlowNode :=
  match d with
  | OtherNode _ => []
  | GeoPointNode parent _ _ _ =>
      d :: match parent with
           | Some p => nodes p
           | None => []
           end
  end.

End GeoPointNodes.

(** ** Channels ([channel.ts]) *)

Module Channel.

Definition X := "x".
Definition Y := "y".
Definition X2 := "x2".
Definition Y2 := "y2".
Definition XOFFSET := "xOffset".
Definition YOFFSET := "yOffset".
Definition RADIUS := "radius".
Definition RADIUS2 := "radius2".
Definition THETA := "theta".
Definition THETA2 := "theta2".

(** [SECONDARY_RANGE_CHANNEL]. *)
Definition SECONDARY_RANGE_CHANNEL : list string :=
  [X2; Y2; LATITUDE2; LONGITUDE2; THETA2; RADIUS2].

(** [getMainRangeChannel(channel)]: the [switch] with its fall-through
    [return channel]. *)
Definition getMainRangeChannel (channel : string) : string :=
  if bool_decide (channel = X2) then X
  else if bool_decide (channel = Y2) then Y
  else if bool_decide (channel = LATITUDE2) then LATITUDE
  else if bool_decide (channel = LONGITUDE2) then LONGITUDE
  else if bool_decide (channel = THETA2) then THETA
  else if bool_decide (channel = RADIUS2) then RADIUS
  else channel.

(** [isSecondaryRangeChannel(c)]. *)
Definition isSecondaryRangeChannel (c : string) : bool :=
  let main := getMainRangeChannel c in
  negb (bool_decide (main = c)).

(** [getSecondaryRangeChannel(channel)]; [None] is [undefined]. *)
Definition getSecondaryRangeChannel (channel : string) : option string :=
  if bool_decide (channel = X) then Some X2
  else if bool_decide (channel = Y) then Some Y2
  else if bool_decide (channel = LATITUDE) then Some LATITUDE2
  else if bool_decide (channel = LONGITUDE) then Some LONGITUDE2
  else if bool_decide (channel = THETA) then Some THETA2
  else if bool_decide (channel = RADIUS) then Some RADIUS2
  else None.

(** [isGeoPositionChannel(c)]: a key of [GEO_POSIITON_CHANNEL_INDEX]. *)
Definition isGeoPositionChannel (c : string) : bool :=
  bool_decide (c ∈ GEOPOSITION_CHANNELS).

(** [getPositionChannelFromLatLong(channel)]; the [switch] has no default,
    so any other channel gives [undefined]. *)
Definition getPositionChannelFromLatLong (channel : string) : option string :=
  if bool_decide (channel = LATITUDE) then Some Y
  else if bool_decide (channel = LATITUDE2) then Some Y2
  else if bool_decide (channel = LONGITUDE) then Some X
  else if bool_decide (channel = LONGITUDE2) then Some X2
  else None.

(** [getSizeChannel(channel)]. *)
Definition getSizeChannel (channel : string) : option string :=
  if bool_decide (channel = X) || bool_decide (channel = X2) then Some "width"
  else if bool_decide (channel = Y) || bool_decide (channel = Y2) then Some "height"
  else None.

(** [getPositionScaleChannel(sizeType)]. *)
Definition getPositionScaleChannel (sizeType : string) : string :=
  if bool_decide (sizeType = "width") then X else Y.

(** [isXorY(channel)]: a key of [POSITION_SCALE_CHANNEL_INDEX]. *)
Definition isXorY (channel : string) : bool :=
  bool_decide (channel ∈ [X; Y]).

(** [isXorYOffset(channel)]: a key of [OFFSET_SCALE_CHANNEL_INDEX]. *)
Definition isXorYOffset (channel : string) : bool :=
  bool_decide (channel ∈ [XOFFSET; YOFFSET]).

(** [getOffsetChannel(channel)]. *)
Definition getOffsetChannel (channel : string) : option string :=
  if bool_decide (channel = X) then Some "xOffset"
  else if bool_decide (channel = Y) then Some "yOffset"
  else if bool_decide (channel = X2) then Some "x2Offset"
  else if bool_decide (channel = Y2) then Some "y2Offset"
  else if bool_decide (channel = THETA) then Some "thetaOffset"
  else if bool_decide (channel = RADIUS) then Some "radiusOffset"
  else if bool_decide (channel = THETA2) then Some "theta2Offset"
  else if bool_decide (channel = RADIUS2) then Some "radius2Offset"
  else None.

(** [getOffsetScaleChannel(channel)]. *)
Definition getOffsetScaleChannel (channel : string) : option string :=
  if bool_decide (channel = X) then Some "xOffset"
  else if bool_decide (channel = Y) then Some "yOffset"
  else None.

(** [getMainChannelFromOffsetChannel(channel)]. *)
Definition getMainChannelFromOffsetChannel (channel : string) : option string :=
  if bool_decide (channel = "xOffset") then Some X
  else if bool_decide (channel = "yOffset") then Some Y
  else None.

End Channel.

(** ** Reference descriptions of the promotion *)

(** The projection components of the children that have one, in order. *)
Definition childComponents (children : list Model) : list ProjectionComponent :=
  omap (λ child, projection (node child)) children.

(** The concatenation, in child order, of the fit-data lists of the
    children that have a fit-enabled projection component. *)
Definition childFitData (children : list Model) : list DataRef :=
  flat_map (λ child, match projection (node child) with
                     | Some p => default [] (data p)
                     | None => []
                     end) children.

(** A child after the promotion to the name [name]: its projection name is
    renamed and its component is flagged; a child without component is
    left alone. *)
Definition promotedChild (name : string) (child : Model) : Model :=
  match projection (node child) with
  | None => child
  | Some p =>
      withNode child
        (setProjection
           (renameProjection (node child) (toStringU (Split.get p "name")) name)
           (Some (setMerged p true)))
  end.

(** The mutations of the promotion of the children, the first of which
    has index [i]: for each child with a component, the push of its fit
    data if it is fit-enabled, then the rename, then the flag. *)
Fixpoint promotionLog (name : string) (i : nat) (children : list Model) : list Event :=
  match children with
  | [] => []
  | child :: rest =>
      match projection (node child) with
      | None => promotionLog name (S i) rest
      | Some p =>
          (if isFit p then [EvPushData i (default [] (data p))] else [])
          ++ [EvRename i (toStringU (Split.get p "name")) name; EvMerged i]
          ++ promotionLog name (S i) rest
      end
  end.





(** A property of the state of every model of a tree. *)
#[local] Unset Elimination Schemes.
Inductive allNodes (P : Node → Prop) : Model → Prop :=
| allNodes_unit n u : P n → allNodes P (UnitModel n u)
| allNodes_composite ty n children :
    P n → Forall (allNodes P) children → allNodes P (CompositeModel ty n children).
#[local] Set Elimination Schemes.

(** What parsing establishes of a component: it is live, it has a size
    exactly when it has a data list, and its data list is not empty. *)
Definition freshComponent (c : ProjectionComponent) : Prop :=
  merged c = false
  ∧ (is_Some (size c) ↔ is_Some (data c))
  ∧ data c ≠ Some [].

Definition dataNotEmpty (n : Node) : Prop :=
  ∀ c, projection n = Some c → data c ≠ Some [].

(** The component a composite model gets when the reduction succeeds with
    the representative [acc]. *)
Definition promotedComponent (n : Node) (acc : ProjectionComponent)
    (children : list Model) : ProjectionComponent :=
  newProjectionComponent (parseProjectionName n) (specifiedProjection acc) (size acc)
    ((λ d, d ++ childFitData children) <$> data acc).

Definition rootFresh (m : Model) : Prop :=
  ∀ c, projection (node m) = Some c → freshComponent c.

(** Two trees of the same shape whose models are related one by one. *)
#[local] Unset Elimination Schemes.
Inductive treeRel (R : Node → Node → Prop) : Model → Model → Prop :=
| treeRel_unit n n' u : R n n' → treeRel R (UnitModel n u) (UnitModel n' u)
| treeRel_composite ty n n' children children' :
    R n n' → Forall2 (treeRel R) children children' →
    treeRel R (CompositeModel ty n children) (CompositeModel ty n' children').
#[local] Set Elimination Schemes.

(** What parsing the projections may change of the state of a model,
    besides its projection component: the values of registered projection
    names, and reference counts, which only grow. *)
Definition keepsNames (n n' : Node) : Prop :=
  name n' = name n
  ∧ signalNameMap n' = signalNameMap n
  ∧ outputNodes n' = outputNodes n
  ∧ (∀ k, NameMap.has (projectionNameMap n') k = NameMap.has (projectionNameMap n) k)
  ∧ (∀ k, (default 0 (outputNodeRefCounts n !! k)
           ≤ default 0 (outputNodeRefCounts n' !! k))%nat).

(** The distinct elements of a list in the order of their first
    occurrence, as the words say it: the element at position [i] is kept
    iff it does not occur at an earlier position. *)
Definition firstOccurrences (l : list string) : list string :=
  omap id (imap (λ i x, if bool_decide (x ∈ take i l) then None else Some x) l).

(** ** Sample components *)

Module Samples.

Definition viewSize : option (list SizeRef) :=
  Some [SizeSignal (Some "width"); SizeSignal (Some "height")].

(** A fit-enabled component without explicit properties. *)
Definition plain : ProjectionComponent :=
  newProjectionComponent "layer_0_projection" ∅ viewSize
    (Some [DataName "layer_0_main"]).

(** A fit-enabled component with an explicit projection type. *)
Definition mercator : ProjectionComponent :=
  newProjectionComponent "layer_1_projection" {[ "type" := VStr "mercator" ]} viewSize
    (Some [DataName "layer_1_main"]).

Definition emptyNode (name : string) : Node :=
  mkNode name None ∅ ∅ ∅ ∅.

(** A node whose name maps hold the identity entries for its own
    projection and layout size names. *)
Definition seededNode (name : string) : Node :=
  let n := emptyNode name in
  mkNode name None
    {[ getName n "projection" := getName n "projection" ]}
    {[ getName n "width" := "width"; getName n "height" := "height" ]} ∅ ∅.

(** A [geoshape] unit without encoding, explicit projection or data. *)
Definition shapeSpec : UnitSpec :=
  mkUnitSpec "geoshape" ∅ None None None None.

(** A point unit with longitude and latitude fields. *)
Definition pointSpec : UnitSpec :=
  mkUnitSpec "circle"
    {[ "longitude" := FieldDef "lon" "quantitative";
       "latitude" := FieldDef "lat" "quantitative" ]} None None None None.

(** A [geoshape] unit with an explicit scale. *)
Definition scaledSpec : UnitSpec :=
  mkUnitSpec "geoshape"
    {[ "shape" := FieldDef "geo" "geojson" ]}
    (Some {[ "scale" := VNum 100 ]}) None None None.

(** A unit without projection. *)
Definition barSpec : UnitSpec :=
  mkUnitSpec "bar" {[ "x" := FieldDef "a" "nominal" ]} None None None None.

(** A node holding a live fit-enabled component over two named data
    sources, one of them listed twice. *)
Definition twoSources : list DataRef :=
  [DataName "a"; DataName "b"; DataName "a"].

Definition fitComponent : ProjectionComponent :=
  newProjectionComponent "projection" ∅ viewSize (Some twoSources).

Definition fitNode : Node :=
  setProjection (seededNode "") (Some fitComponent).


(** A [geoshape] unit whose specified projection and configuration both
    hold properties, some of them expression references. *)
Definition configuredSpec : UnitSpec :=
  mkUnitSpec "geoshape" ∅
    (Some {[ "center" := VExpr "c" ]})
    (Some {[ "center" := VArr [VNum 0; VNum 0]; "rotate" := VExpr "r" ]}) None None.

(** A unit with both coordinate pairs and a geojson shape field. *)
Definition fullGeoSpec : UnitSpec :=
  mkUnitSpec "geoshape"
    {[ "longitude" := FieldDef "lon" "quantitative";
       "latitude2" := DatumDef (VNum 3);
       "shape" := FieldDef "geo" "geojson" ]} None None None None.

Definition layer (children : list Model) : Model :=
  CompositeModel Layer (seededNode "") children.

(** The model after its own parsing. *)
Definition parsed (m : Model) : Model :=
  match parseProjection m with
  | Ok m' => m'
  | Throw _ => m
  end.

Definition rootComponent (m : Model) : ProjectionComponent :=
  default plain (projection (node m)).

(** Two children that merge, around one without projection. *)
Definition shapeChild : Model := UnitModel (seededNode "layer_0") shapeSpec.
Definition barChild : Model := UnitModel (seededNode "layer_1") barSpec.
Definition pointChild : Model := UnitModel (seededNode "layer_2") pointSpec.
Definition mergingChildren : list Model := [shapeChild; barChild; pointChild].

(** Two children that do not merge: one is fit-enabled, the other has an
    explicit scale. *)
Definition scaledChild : Model := UnitModel (seededNode "layer_1") scaledSpec.
Definition conflictingChildren : list Model := [shapeChild; scaledChild].




(** Resolved children whose fit lists are [[d1]], [[]] and [[d3]]. *)
Definition d1 : DataRef := DataName "d1".
Definition d3 : DataRef := DataName "d3".

Definition resolvedChild (name : string) (fitData : list DataRef) : Model :=
  UnitModel
    (setProjection (seededNode name)
       (Some (newProjectionComponent (getName (emptyNode name) "projection") ∅
                viewSize (Some fitData))))
    shapeSpec.

Definition resolvedChildren : list Model :=
  [resolvedChild "layer_0" [d1]; resolvedChild "layer_1" []; resolvedChild "layer_2" [d3]].

End Samples.

(** * Properties *)

(** ** Name maps *)

Lemma NameMap_inherited_false (k : string) :
  NameMap.inherited k = false ↔ k ∉ NameMap.OBJECT_PROTOTYPE.
Proof. unfold NameMap.inherited. apply bool_decide_eq_false. Qed.

Lemma NameMap_inherited_true (k : string) :
  NameMap.inherited k = true ↔ k ∈ NameMap.OBJECT_PROTOTYPE.
Proof. unfold NameMap.inherited. apply bool_decide_eq_true. Qed.

Lemma NameMap_read_own (m : NameMap.t) (k v : string) :
  m !! k = Some v → NameMap.read m k = Some (NameMap.Own v).
Proof. unfold NameMap.read. intros ->. reflexivity. Qed.

Lemma NameMap_read_none (m : NameMap.t) (k : string) :
  m !! k = None → NameMap.inherited k = false → NameMap.read m k = None.
Proof. unfold NameMap.read. intros -> ->. reflexivity. Qed.

Lemma NameMap_read_inherited (m : NameMap.t) (k : string) :
  m !! k = None → NameMap.inherited k = true →
  NameMap.read m k = Some (NameMap.Inherited k).
Proof. unfold NameMap.read. intros -> ->. reflexivity. Qed.

(** The string [get] gives is the own entry, whatever the key. *)
Lemma NameMap_asString_get (m : NameMap.t) (k : string) :
  NameMap.asString (NameMap.get m k) = m !! k.
Proof.
  unfold NameMap.get, NameMap.read.
  destruct (m !! k); [reflexivity | ]. destruct (NameMap.inherited k); reflexivity.
Qed.

Lemma NameMap_has_own_key (m : NameMap.t) (k : string) :
  NameMap.inherited k = false → NameMap.has m k = bool_decide (is_Some (m !! k)).
Proof. unfold NameMap.has. intros ->. apply orb_false_r. Qed.

Lemma NameMap_has_false (m : NameMap.t) (k : string) :
  NameMap.has m k = false ↔ m !! k = None ∧ k ∉ NameMap.OBJECT_PROTOTYPE.
Proof.
  unfold NameMap.has. rewrite orb_false_iff, bool_decide_eq_false, NameMap_inherited_false.
  rewrite <- eq_None_not_Some. reflexivity.
Qed.

(** An assignment stores the entry unless it is the ignored write to the
    inherited [__proto__]. *)
Lemma NameMap_write_insert (m : NameMap.t) (k v : string) :
  k ≠ "__proto__" ∨ is_Some (m !! k) → NameMap.write m k v = <[k := v]> m.
Proof.
  unfold NameMap.write. intros [Hk | [w Hw]].
  - rewrite (bool_decide_eq_false_2 (k = "__proto__") Hk). reflexivity.
  - rewrite Hw, andb_false_r. reflexivity.
Qed.

Lemma NameMap_write_proto (m : NameMap.t) (v : string) :
  m !! "__proto__" = None → NameMap.write m "__proto__" v = m.
Proof. unfold NameMap.write. intros ->. reflexivity. Qed.

(** On a key with an own entry, [rename] overwrites unless the entry is
    the empty string. *)
Lemma NameMap_rename_own (m : NameMap.t) (k v new : string) :
  m !! k = Some v →
  NameMap.rename m k new = if bool_decide (v = "") then m else <[k := new]> m.
Proof.
  intros Hk. unfold NameMap.rename. rewrite (NameMap_read_own m k v Hk).
  cbn [NameMap.truthyMember]. case_bool_decide; [reflexivity | ].
  cbn [negb]. apply NameMap_write_insert. right. eauto.
Qed.

(** On a key without own entry that no object inherits, [rename] does
    nothing. *)
Lemma NameMap_rename_none (m : NameMap.t) (k new : string) :
  m !! k = None → NameMap.inherited k = false → NameMap.rename m k new = m.
Proof.
  intros Hk Hi. unfold NameMap.rename. rewrite (NameMap_read_none m k Hk Hi). reflexivity.
Qed.

(** On an inherited name without own entry, [rename] assigns: an own
    entry is written, except for [__proto__]. *)
Lemma NameMap_rename_inherited (m : NameMap.t) (k new : string) :
  m !! k = None → NameMap.inherited k = true →
  NameMap.rename m k new = NameMap.write m k new.
Proof.
  intros Hk Hi. unfold NameMap.rename. rewrite (NameMap_read_inherited m k Hk Hi). reflexivity.
Qed.

Lemma NameMap_rename_idempotent (m : NameMap.t) (a b : string) :
  NameMap.rename (NameMap.rename m a b) a b = NameMap.rename m a b.
Proof.
  destruct (m !! a) as [v | ] eqn:Ha.
  - rewrite (NameMap_rename_own m a v b Ha). case_bool_decide as Hv.
    + rewrite (NameMap_rename_own m a v b Ha), bool_decide_eq_true_2 by exact Hv.
      reflexivity.
    + rewrite (NameMap_rename_own (<[a := b]> m) a b b) by apply lookup_insert_eq.
      case_bool_decide; [reflexivity | apply insert_insert_eq].
  - destruct (NameMap.inherited a) eqn:Hi.
    + rewrite (NameMap_rename_inherited m a b Ha Hi).
      destruct (decide (a = "__proto__")) as [-> | Hne].
      * rewrite (NameMap_write_proto m b Ha).
        rewrite (NameMap_rename_inherited m _ b Ha Hi).
        apply NameMap_write_proto, Ha.
      * rewrite (NameMap_write_insert m a b) by (left; exact Hne).
        rewrite (NameMap_rename_own (<[a := b]> m) a b b) by apply lookup_insert_eq.
        case_bool_decide; [reflexivity | apply insert_insert_eq].
    + rewrite !(NameMap_rename_none m a b Ha Hi). reflexivity.
Qed.

(** ** The keys the model looks up are not inherited names *)

Lemma lastChar_app (a b : string) : b ≠ "" → lastChar (a +:+ b) = lastChar b.
Proof.
  intros Hb. induction a as [ | c a IH]; [reflexivity | ].
  change (String c a +:+ b) with (String c (a +:+ b)).
  rewrite <- IH. destruct (a +:+ b) eqn:Hab; [ | reflexivity].
  destruct a as [ | c' a']; [exfalso; exact (Hb Hab) | discriminate Hab].
Qed.

Lemma lastChar_replaceNonWord (s : string) :
  lastChar (replaceNonWord s)
  = (λ c, if isWordChar c then c else "_"%char) <$> lastChar s.
Proof.
  induction s as [ | c s IH]; [reflexivity | ].
  cbn [replaceNonWord lastChar]. rewrite IH. destruct s; reflexivity.
Qed.

Lemma lastChar_getName (n : Node) (text : string) :
  text ≠ "" →
  lastChar (getName n text)
  = (λ c, if isWordChar c then c else "_"%char) <$> lastChar text.
Proof.
  intros Htext. unfold getName, varName.
  set (s := (if bool_decide (name n = "") then "" else name n +:+ "_") +:+ text).
  assert (Hs : s ≠ "").
  { subst s. destruct (if bool_decide (name n = "") then "" else name n +:+ "_");
      [exact Htext | discriminate]. }
  rewrite lastChar_app by (destruct s; [congruence | discriminate]).
  rewrite lastChar_replaceNonWord. subst s. rewrite lastChar_app by exact Htext.
  reflexivity.
Qed.

(** The name of a member of [Object.prototype] ends in one of six
    characters. *)
Lemma inherited_lastChar (k : string) :
  NameMap.inherited k = true →
  lastChar k ∈ [Some "r"; Some "y"; Some "f"; Some "e"; Some "g"; Some "_"]%char.
Proof.
  intros Hk. apply NameMap_inherited_true in Hk. unfold NameMap.OBJECT_PROTOTYPE in Hk.
  repeat (apply elem_of_cons in Hk as [-> | Hk];
          [cbn [lastChar]; repeat (apply elem_of_cons; first [left; reflexivity | right]) | ]).
  inversion Hk.
Qed.

Lemma getName_own (n : Node) (text : string) (c : ascii) :
  lastChar text = Some c →
  isWordChar c = true →
  Some c ∉ [Some "r"; Some "y"; Some "f"; Some "e"; Some "g"; Some "_"]%char →
  NameMap.inherited (getName n text) = false.
Proof.
  intros Hlast Hword Hc.
  destruct (NameMap.inherited (getName n text)) eqn:Hi; [ | reflexivity].
  exfalso. apply Hc. apply inherited_lastChar in Hi.
  rewrite lastChar_getName in Hi by (intros ->; discriminate).
  rewrite Hlast in Hi. cbn [fmap option_fmap option_map] in Hi. rewrite Hword in Hi.
  exact Hi.
Qed.

(** The projection key of a model is never the name of an inherited
    member, so [projectionName()] reads an own entry or [undefined]. *)
Lemma getName_projection_own (n : Node) :
  NameMap.inherited (getName n "projection") = false.
Proof.
  apply (getName_own n "projection" "n"); [reflexivity | reflexivity | ].
  intros H. repeat (apply elem_of_cons in H as [H | H]; [discriminate | ]). inversion H.
Qed.

(** Nor are the layout size keys of [getSizeSignalRef]. *)
Lemma getName_size_own (n : Node) (t : LayoutSizeType) :
  NameMap.inherited
    (getName n (match t with Width => "width" | Height => "height" end)) = false.
Proof.
  destruct t.
  - apply (getName_own n "width" "h"); [reflexivity | reflexivity | ].
    intros H. repeat (apply elem_of_cons in H as [H | H]; [discriminate | ]). inversion H.
  - apply (getName_own n "height" "t"); [reflexivity | reflexivity | ].
    intros H. repeat (apply elem_of_cons in H as [H | H]; [discriminate | ]). inversion H.
Qed.

(** Hence the lookups of the model give what [get] gives: a string of the
    map, or [undefined]. *)
Lemma NameMap_get_getName (m : NameMap.t) (n : Node) (text : string) :
  NameMap.inherited (getName n text) = false →
  NameMap.get m (getName n text) = NameMap.Own <$> NameMap.asString (NameMap.get m (getName n text)).
Proof.
  intros Hi. unfold NameMap.get, NameMap.read. rewrite Hi.
  destruct (m !! getName n text); reflexivity.
Qed.

(** C9 (as the code has it): on every name map and for all names [A] and
    [B], renaming twice gives the same map as renaming once.  When [A] was
    never registered and is not the name of a member inherited from
    [Object.prototype], renaming [A] leaves the map unchanged and [get] on
    [A] is [undefined], on the fresh map as on any other; the same holds
    whenever [has(A)] is false. *)
Theorem NameMap_rename_idempotent_noop (m : NameMap.t) (A B : string) :
  NameMap.rename (NameMap.rename m A B) A B = NameMap.rename m A B
  ∧ (m !! A = None → A ∉ NameMap.OBJECT_PROTOTYPE →
     NameMap.rename m A B = m ∧ NameMap.get m A = None ∧ NameMap.has m A = false)
  ∧ (A ∉ NameMap.OBJECT_PROTOTYPE → NameMap.get NameMap.empty A = None)
  ∧ (NameMap.has m A = false → NameMap.rename m A B = m ∧ NameMap.get m A = None).
Proof.
  split; [apply NameMap_rename_idempotent | ].
  assert (Hnoop : ∀ m' : NameMap.t, m' !! A = None → A ∉ NameMap.OBJECT_PROTOTYPE →
            NameMap.rename m' A B = m' ∧ NameMap.get m' A = None
            ∧ NameMap.has m' A = false).
  { intros m' HA Hp. apply NameMap_inherited_false in Hp as Hi.
    split; [apply NameMap_rename_none; assumption | ].
    split; [apply NameMap_read_none; assumption | ].
    apply NameMap_has_false. auto. }
  split; [apply Hnoop | ]. split.
  - intros Hp. apply (Hnoop NameMap.empty); [apply lookup_empty | exact Hp].
  - intros Hhas. apply NameMap_has_false in Hhas as [HA Hp].
    destruct (Hnoop m HA Hp) as (H1 & H2 & _). auto.
Qed.

Lemma NameMap_rename_idempotent_noop_witness :
  let m : NameMap.t := NameMap.set NameMap.empty "child_projection" "child_projection" in
  m !! "other_projection" = None
  ∧ ("other_projection" ∉ NameMap.OBJECT_PROTOTYPE)
  ∧ NameMap.rename (NameMap.rename m "other_projection" "projection") "other_projection" "projection"
    = NameMap.rename m "other_projection" "projection"
  ∧ NameMap.rename m "other_projection" "projection" = m
  ∧ NameMap.get m "other_projection" = None
  ∧ NameMap.get NameMap.empty "other_projection" = None.
Proof.
  intros m.
  assert (Hm : m !! "other_projection" = None) by (vm_compute; reflexivity).
  assert (Hp : "other_projection" ∉ NameMap.OBJECT_PROTOTYPE).
  { apply NameMap_inherited_false. vm_compute. reflexivity. }
  destruct (NameMap_rename_idempotent_noop m "other_projection" "projection")
    as (Hidem & Hnoop & Hempty & _).
  destruct (Hnoop Hm Hp) as (Hsame & Hget & _).
  split; [exact Hm | ]. split; [exact Hp | ]. split; [exact Hidem | ].
  split; [exact Hsame | ]. split; [exact Hget | exact (Hempty Hp)].
Defined.

(** The claim of C9 as it is worded fails on the name of an inherited
    member: [constructor] was never registered in the fresh map, yet [get]
    gives the inherited function and not [undefined], [has] is true, and
    [rename] writes an entry, so that it is no no-op. *)
Lemma NameMap_rename_registers_inherited_name :
  NameMap.empty !! "constructor" = None
  ∧ NameMap.get NameMap.empty "constructor" = Some (NameMap.Inherited "constructor")
  ∧ NameMap.get NameMap.empty "constructor" ≠ None
  ∧ NameMap.has NameMap.empty "constructor" = true
  ∧ NameMap.rename NameMap.empty "constructor" "projection" ≠ NameMap.empty
  ∧ NameMap.get (NameMap.rename NameMap.empty "constructor" "projection") "constructor"
    = Some (NameMap.Own "projection").
Proof.
  assert (Hr : NameMap.rename NameMap.empty "constructor" "projection"
               = <["constructor" := "projection"]> (∅ : NameMap.t)).
  { rewrite NameMap_rename_inherited;
      [ | apply lookup_empty | vm_compute; reflexivity].
    apply NameMap_write_insert. left. discriminate. }
  split; [apply lookup_empty | ].
  split; [apply NameMap_read_inherited; [apply lookup_empty | vm_compute; reflexivity] | ].
  split.
  { unfold NameMap.get.
    rewrite NameMap_read_inherited; [discriminate | apply lookup_empty | vm_compute; reflexivity]. }
  split; [vm_compute; reflexivity | ].
  split.
  - rewrite Hr. intros H.
    apply (f_equal (λ m : NameMap.t, m !! "constructor")) in H.
    rewrite lookup_insert_eq in H. unfold NameMap.empty in H.
    rewrite lookup_empty in H. discriminate.
  - rewrite Hr. apply NameMap_read_own, lookup_insert_eq.
Qed.

(** ** The merge test *)

Lemma every_true_iff {A : Type} (arr : list A) (f : A → bool) :
  every arr f = true ↔ ∀ x, x ∈ arr → f x = true.
Proof.
  induction arr as [ | a rest IH]; simpl.
  - split; [ | reflexivity]. intros _ x Hx. inversion Hx.
  - destruct (f a) eqn:Hfa.
    + rewrite IH. split.
      * intros H x Hx. apply elem_of_cons in Hx as [-> | Hx]; auto.
      * intros H x Hx. apply H. apply elem_of_cons. auto.
    + split; [discriminate | ]. intros H.
      rewrite <- Hfa. apply H. apply elem_of_cons. auto.
Qed.

Lemma hasOwnProperty_true (o : Bag) (prop : string) :
  hasOwnProperty o prop = true ↔ is_Some (o !! prop).
Proof. unfold hasOwnProperty. apply bool_decide_eq_true. Qed.

Lemma propertyShared_true (A B : ProjectionComponent) (prop : string) :
  propertyShared A B prop = true ↔
    (explicit A !! prop = None ∧ explicit B !! prop = None)
    ∨ (∃ v, explicit A !! prop = Some v ∧ explicit B !! prop = Some v).
Proof.
  unfold propertyShared, hasOwnProperty, Split.get.
  destruct (explicit A !! prop) as [va | ] eqn:HA;
    destruct (explicit B !! prop) as [vb | ] eqn:HB; simpl.
  - destruct (deepEqual va vb) eqn:E.
    + apply deepEqual_eq in E as ->. split; [ | reflexivity]. right. eauto.
    + split; [discriminate | ]. intros [[? _] | (v & Hv1 & Hv2)]; [discriminate | ].
      simplify_eq. rewrite (proj2 (deepEqual_eq v v) eq_refl) in E. discriminate.
  - split; [discriminate | ].
    intros [[? _] | (v & _ & ?)]; discriminate.
  - split; [discriminate | ].
    intros [[_ ?] | (v & ? & _)]; discriminate.
  - split; [ | reflexivity]. left. split; reflexivity.
Qed.

Lemma allPropertiesShared_agree (A B : ProjectionComponent) :
  allPropertiesShared A B = true ↔ propertiesAgree A B.
Proof.
  unfold allPropertiesShared, propertiesAgree. rewrite every_true_iff.
  split; intros H prop Hprop; apply propertyShared_true, H, Hprop.
Qed.

Lemma explicit_empty_agree (A B : ProjectionComponent) :
  explicit A = ∅ → explicit B = ∅ → propertiesAgree A B.
Proof.
  intros HA HB prop _. left. rewrite HA, HB, !lookup_empty. split; reflexivity.
Qed.

(** C1 (as the code has it): [mergeIfNoConflict(A, B)] returns a component
    iff the two sizes are equal and either every property of the fixed set
    is explicit on neither side or explicit on both with equal values, or
    one of the two explicit bags is empty.  On success it returns [A] when
    the properties agree (so also when both sides, or neither, have
    explicit properties), and otherwise the side whose explicit bag is not
    empty. *)
Theorem mergeIfNoConflict_characterisation (A B : ProjectionComponent) :
  (is_Some (mergeIfNoConflict A B) ↔
     size A = size B
     ∧ (propertiesAgree A B ∨ explicit A = ∅ ∨ explicit B = ∅))
  ∧ (size A = size B → propertiesAgree A B →
       mergeIfNoConflict_side A B = Some First ∧ mergeIfNoConflict A B = Some A)
  ∧ (size A = size B → ¬ propertiesAgree A B → explicit A = ∅ →
       mergeIfNoConflict_side A B = Some Second ∧ mergeIfNoConflict A B = Some B)
  ∧ (size A = size B → ¬ propertiesAgree A B → explicit A ≠ ∅ → explicit B = ∅ →
       mergeIfNoConflict_side A B = Some First ∧ mergeIfNoConflict A B = Some A).
Proof.
  unfold mergeIfNoConflict, mergeIfNoConflict_side. cbv zeta.
  pose proof (allPropertiesShared_agree A B) as Hagree.
  destruct (allPropertiesShared A B) eqn:Hshared.
  - assert (HP : propertiesAgree A B) by (apply Hagree; reflexivity).
    split; [ | split; [ | split]].
    + case_bool_decide as Hsize; simpl.
      * split; [intros _; split; [exact Hsize | left; exact HP] | eauto].
      * split; [intros [? ?]; discriminate | intros [? _]; contradiction].
    + intros Hsize _. rewrite bool_decide_eq_true_2 by exact Hsize. split; reflexivity.
    + intros _ Hn. contradiction.
    + intros _ Hn. contradiction.
  - assert (HP : ¬ propertiesAgree A B).
    { intros HP. apply Hagree in HP. discriminate. }
    split; [ | split; [ | split]].
    + case_bool_decide as Hsize; simpl.
      * case_bool_decide as HA; simpl.
        { split; [intros _; split; [exact Hsize | right; left; exact HA] | eauto]. }
        case_bool_decide as HB; simpl.
        { split; [intros _; split; [exact Hsize | right; right; exact HB] | eauto]. }
        split; [intros [? ?]; discriminate | ].
        intros [_ [? | [? | ?]]]; contradiction.
      * split; [intros [? ?]; discriminate | intros [? _]; contradiction].
    + intros _ HP'. contradiction.
    + intros Hsize _ HA.
      rewrite bool_decide_eq_true_2 by exact Hsize.
      rewrite bool_decide_eq_true_2 by exact HA. split; reflexivity.
    + intros Hsize _ HA HB.
      rewrite bool_decide_eq_true_2 by exact Hsize.
      rewrite bool_decide_eq_false_2 by exact HA.
      rewrite bool_decide_eq_true_2 by exact HB. split; reflexivity.
Qed.

Lemma type_in_PROJECTION_PROPERTIES : "type" ∈ PROJECTION_PROPERTIES.
Proof. apply list_elem_of_here. Qed.

Lemma samples_do_not_agree : ¬ propertiesAgree Samples.plain Samples.mercator.
Proof.
  intros H. destruct (H "type" type_in_PROJECTION_PROPERTIES) as [[_ H2] | (v & H1 & _)].
  - vm_compute in H2. discriminate.
  - vm_compute in H1. discriminate.
Qed.

(** C1, as the claim words it, fails: with an empty explicit bag on one
    side and an explicit [type] on the other (sizes equal), the merge
    succeeds and returns the second component, although the property
    [type] is explicit on one side only. *)
Lemma mergeIfNoConflict_succeeds_on_one_sided_property :
  mergeIfNoConflict Samples.plain Samples.mercator = Some Samples.mercator
  ∧ ¬ (is_Some (mergeIfNoConflict Samples.plain Samples.mercator) ↔
         propertiesAgree Samples.plain Samples.mercator
         ∧ size Samples.plain = size Samples.mercator).
Proof.
  assert (Hm : mergeIfNoConflict Samples.plain Samples.mercator = Some Samples.mercator)
    by (vm_compute; reflexivity).
  split; [exact Hm | ].
  intros [Hiff _]. destruct Hiff as [Hagree _].
  - rewrite Hm. eauto.
  - exact (samples_do_not_agree Hagree).
Qed.

Lemma mergeIfNoConflict_characterisation_witness :
  mergeIfNoConflict_side Samples.plain Samples.mercator = Some Second
  ∧ mergeIfNoConflict Samples.plain Samples.mercator = Some Samples.mercator.
Proof.
  destruct (mergeIfNoConflict_characterisation Samples.plain Samples.mercator)
    as (_ & _ & Hsecond & _).
  apply Hsecond.
  - reflexivity.
  - exact samples_do_not_agree.
  - reflexivity.
Defined.

(** ** Parsing a unit projection *)

Lemma notNullish_true (v : option Value) :
  notNullish v = true ↔ ∃ x, v = Some x ∧ x ≠ VNull.
Proof.
  split.
  - destruct v as [x | ]; [ | discriminate].
    intros H. exists x. split; [reflexivity | ]. intros ->. discriminate.
  - intros (x & -> & Hx). destruct x; try reflexivity. contradiction.
Qed.

Lemma notNullish_signalRefOrValue (v : option Value) :
  notNullish (signalRefOrValue <$> v) = notNullish v.
Proof. destruct v as [[ | b | z | s | s | s | l] | ]; reflexivity. Qed.

(** C3: a unit model that has a projection and whose specified projection
    has a non-null [scale] or a non-null [translate] (either alone is
    enough) gets a component that is not auto-fit: its size and its data
    list are both [undefined], whatever the encoding holds, and no data
    source is requested. *)
Theorem parseUnitProjection_explicit_scale_or_translate (n : Node) (u : UnitSpec) (p : Bag) :
  hasProjection u = true →
  unitSpecifiedProjection u = Some p →
  (∃ v, p !! "scale" = Some v ∧ v ≠ VNull) ∨ (∃ v, p !! "translate" = Some v ∧ v ≠ VNull) →
  ∃ c, parseUnitProjection n u = (Some c, n)
       ∧ size c = None ∧ data c = None ∧ isFit c = false
       ∧ parseProjection (UnitModel n u) = Ok (UnitModel (setProjection n (Some c)) u).
Proof.
  intros Hhas Hspec Hgiven.
  assert (Hfit : notNullish ((signalRefOrValue <$> p) !! "scale")
                 || notNullish ((signalRefOrValue <$> p) !! "translate") = true).
  { rewrite !lookup_fmap, !notNullish_signalRefOrValue.
    apply orb_true_iff.
    destruct Hgiven as [H | H]; [left | right]; apply notNullish_true, H. }
  assert (Hparse : ∃ c, parseUnitProjection n u = (Some c, n) ∧ size c = None ∧ data c = None).
  { unfold parseUnitProjection. rewrite Hhas, Hspec. cbn [replaceExprRef fmap option_fmap option_map].
    rewrite Hfit. cbn [negb].
    match goal with
    | |- context [if negb (truthyU ?t) then _ else _] => destruct (negb (truthyU t))
    end; eexists; (split; [reflexivity | split; reflexivity]). }
  destruct Hparse as (c & Hc & Hsize & Hdata).
  exists c. split; [exact Hc | ]. split; [exact Hsize | ]. split; [exact Hdata | ].
  split.
  - unfold isFit. rewrite Hdata. reflexivity.
  - cbn [parseProjection]. rewrite Hc. reflexivity.
Qed.

Lemma parseUnitProjection_explicit_scale_or_translate_witness :
  let n := Samples.seededNode "layer_0" in
  ∃ c, parseUnitProjection n Samples.scaledSpec = (Some c, n)
       ∧ size c = None ∧ data c = None ∧ isFit c = false
       ∧ parseProjection (UnitModel n Samples.scaledSpec)
         = Ok (UnitModel (setProjection n (Some c)) Samples.scaledSpec).
Proof.
  intros n.
  apply (parseUnitProjection_explicit_scale_or_translate n Samples.scaledSpec
           {[ "scale" := VNum 100 ]}).
  - vm_compute. reflexivity.
  - reflexivity.
  - left. exists (VNum 100). split; [vm_compute; reflexivity | discriminate].
Defined.

(** ** Fit sources and the fit expression *)

Lemma fitSources_snoc (n : Node) (ds : list DataRef) (d : DataRef) :
  fitSources n (ds ++ [d])
  = if bool_decide (fitSource n d ∈ fitSources n ds)
    then fitSources n ds
    else fitSources n ds ++ [fitSource n d].
Proof.
  unfold fitSources. rewrite foldl_app. cbn [foldl]. unfold contains.
  case_bool_decide; reflexivity.
Qed.

Lemma firstOccurrences_snoc (l : list string) (x : string) :
  firstOccurrences (l ++ [x])
  = if bool_decide (x ∈ l) then firstOccurrences l else firstOccurrences l ++ [x].
Proof.
  unfold firstOccurrences. rewrite imap_app, omap_app. cbn [imap omap].
  rewrite Nat.add_0_r, take_app_length.
  assert (Himap : imap (λ i y, if bool_decide (y ∈ take i (l ++ [x])) then None else Some y) l
                  = imap (λ i y, if bool_decide (y ∈ take i l) then None else Some y) l).
  { apply imap_ext. intros i y Hi. cbn.
    rewrite take_app_le; [reflexivity | ].
    apply lookup_lt_Some in Hi. lia. }
  rewrite Himap. case_bool_decide; cbn; [apply app_nil_r | reflexivity].
Qed.

Lemma elem_of_firstOccurrences (l : list string) (x : string) :
  x ∈ firstOccurrences l ↔ x ∈ l.
Proof.
  induction l as [ | y l IH] using rev_ind.
  - reflexivity.
  - rewrite firstOccurrences_snoc. case_bool_decide as Hy.
    + rewrite IH, elem_of_app, list_elem_of_singleton. split; [auto | ].
      intros [H | ->]; assumption.
    + rewrite !elem_of_app, IH. reflexivity.
Qed.

Lemma NoDup_firstOccurrences (l : list string) : NoDup (firstOccurrences l).
Proof.
  induction l as [ | y l IH] using rev_ind.
  - constructor.
  - rewrite firstOccurrences_snoc. case_bool_decide as Hy; [exact IH | ].
    apply NoDup_app. split; [exact IH | ]. split.
    + intros x Hx Hx'. apply list_elem_of_singleton in Hx' as ->.
      apply Hy, elem_of_firstOccurrences, Hx.
    + apply NoDup_singleton.
Qed.

Lemma fitSources_firstOccurrences (n : Node) (ds : list DataRef) :
  fitSources n ds = firstOccurrences (map (fitSource n) ds).
Proof.
  induction ds as [ | d ds IH] using rev_ind.
  - reflexivity.
  - rewrite fitSources_snoc, map_app. cbn [map].
    rewrite firstOccurrences_snoc, IH.
    rewrite (bool_decide_ext _ _ (elem_of_firstOccurrences (map (fitSource n) ds) (fitSource n d))).
    reflexivity.
Qed.

Lemma fitSources_nil_iff (n : Node) (ds : list DataRef) :
  fitSources n ds = [] ↔ ds = [].
Proof.
  split; [ | intros ->; reflexivity].
  destruct ds as [ | d ds]; [reflexivity | ]. intros H. exfalso.
  assert (Hin : fitSource n d ∈ fitSources n (d :: ds)).
  { rewrite fitSources_firstOccurrences. apply elem_of_firstOccurrences.
    cbn. apply list_elem_of_here. }
  rewrite H in Hin. inversion Hin.
Qed.

(** The entry a live fit-enabled component assembles to. *)
Lemma assembleProjectionForModel_fit (n : Node) (c : ProjectionComponent)
    (ds : list DataRef) (refs : list SizeRef) (signals : list (option string)) :
  projection n = Some c → merged c = false →
  data c = Some ds → size c = Some refs → sizeSignals refs = Ok signals →
  ds ≠ [] →
  assembleProjectionForModel n
  = Ok [ Split.combine c
         ∪ withName (Split.combine c !! "name")
             (<["size" := VSignal (sizeExpression signals)]>
                {[ "fit" := VSignal (fitExpression (fitSources n ds)) ]}) ].
Proof.
  intros Hc Hmerged Hdata Hsize Hsignals Hne.
  unfold assembleProjectionForModel. rewrite Hc, Hmerged, Hdata, Hsize, Hsignals.
  cbn [mbind result_bind].
  rewrite bool_decide_eq_false_2; [reflexivity | ].
  intros Hlen. apply Hne, (fitSources_nil_iff n).
  destruct (fitSources n ds); [reflexivity | cbn in Hlen; lia].
Qed.

Lemma withName_lookup_ne (name : option Value) (rest : Bag) (k : string) :
  k ≠ "name" → withName name rest !! k = rest !! k.
Proof.
  intros Hk. destruct name as [v | ]; cbn; [ | reflexivity].
  apply lookup_insert_ne. congruence.
Qed.



(** C10: the fit sources a component assembles are the distinct source
    expressions of its data list in the order of their first occurrence:
    none occurs twice, each expression of the data list occurs, and the
    list is [firstOccurrences] of the expressions; the fit string of the
    assembled entry is formatted from this list. *)
Theorem fitSources_distinct_in_first_occurrence_order (n : Node) (ds : list DataRef) :
  NoDup (fitSources n ds)
  ∧ (∀ s, s ∈ fitSources n ds ↔ s ∈ map (fitSource n) ds)
  ∧ fitSources n ds = firstOccurrences (map (fitSource n) ds)
  ∧ (∀ d, fitSources n (ds ++ [d])
          = if bool_decide (fitSource n d ∈ map (fitSource n) ds)
            then fitSources n ds
            else fitSources n ds ++ [fitSource n d])
  ∧ (∀ c refs signals,
       projection n = Some c → merged c = false → data c = Some ds →
       size c = Some refs → sizeSignals refs = Ok signals → ds ≠ [] →
       assembleProjectionForModel n
       = Ok [ Split.combine c
              ∪ withName (Split.combine c !! "name")
                  (<["size" := VSignal (sizeExpression signals)]>
                     {[ "fit" := VSignal (fitExpression
                                            (firstOccurrences (map (fitSource n) ds))) ]}) ]).
Proof.
  split; [ | split; [ | split; [ | split]]].
  - rewrite fitSources_firstOccurrences. apply NoDup_firstOccurrences.
  - intros s. rewrite fitSources_firstOccurrences. apply elem_of_firstOccurrences.
  - apply fitSources_firstOccurrences.
  - intros d. rewrite fitSources_snoc.
    rewrite (bool_decide_ext (fitSource n d ∈ fitSources n ds)
               (fitSource n d ∈ map (fitSource n) ds)); [reflexivity | ].
    rewrite fitSources_firstOccurrences. apply elem_of_firstOccurrences.
  - intros c refs signals Hc Hmerged Hdata Hsize Hsignals Hne.
    rewrite <- fitSources_firstOccurrences.
    apply (assembleProjectionForModel_fit n c ds refs signals); assumption.
Qed.

Lemma fitSources_distinct_in_first_occurrence_order_witness :
  fitSources Samples.fitNode Samples.twoSources = ["data('a')"; "data('b')"]
  ∧ assembleProjectionForModel Samples.fitNode
    = Ok [ Split.combine Samples.fitComponent
           ∪ withName (Split.combine Samples.fitComponent !! "name")
               (<["size" := VSignal "[width, height]"]>
                  {[ "fit" := VSignal "[data('a'), data('b')]" ]}) ].
Proof.
  destruct (fitSources_distinct_in_first_occurrence_order Samples.fitNode Samples.twoSources)
    as (_ & _ & Hfirst & _ & Hassemble).
  split.
  - rewrite Hfirst. vm_compute. reflexivity.
  - rewrite (Hassemble Samples.fitComponent
               [SizeSignal (Some "width"); SizeSignal (Some "height")]
               [Some "width"; Some "height"]
               eq_refl eq_refl eq_refl eq_refl eq_refl ltac:(discriminate)).
    vm_compute. reflexivity.
Defined.

(** ** The tree of models *)

Lemma Model_nested_ind (P : Model → Prop) :
  (∀ n u, P (UnitModel n u)) →
  (∀ ty n children, Forall P children → P (CompositeModel ty n children)) →
  ∀ m, P m.
Proof.
  intros Hunit Hcomp. fix IH 1. intros [n u | ty n children].
  - apply Hunit.
  - apply Hcomp. induction children as [ | c cs IHcs]; constructor.
    + apply IH.
    + exact IHcs.
Qed.

Lemma parseProjection_composite (ty : CompositeType) (n : Node) (children : list Model) :
  children ≠ [] →
  parseProjection (CompositeModel ty n children)
  = (children1 ← parseChildren children;
     '(comp, children2, _) ← mergeChildProjections n children1;
     Ok (CompositeModel ty (setProjection n comp) children2)).
Proof. destruct children as [ | c cs]; [contradiction | ]. intros _. reflexivity. Qed.

Lemma parseChildren_Ok_inv (children children1 : list Model) :
  parseChildren children = Ok children1 →
  Forall2 (λ child child1, parseProjection child = Ok child1) children children1.
Proof.
  revert children1. induction children as [ | c cs IH]; intros children1; cbn [parseChildren].
  - intros [= <-]. constructor.
  - destruct (parseProjection c) as [c1 | e] eqn:Hc; [ | discriminate].
    cbn [mbind result_bind].
    destruct (parseChildren cs) as [cs1 | e] eqn:Hcs; [ | discriminate].
    cbn [mbind result_bind]. intros [= <-]. constructor; [exact Hc | ]. apply IH. reflexivity.
Qed.

Lemma parseChildren_total (children : list Model) :
  Forall (λ child, ∃ child1, parseProjection child = Ok child1) children →
  ∃ children1, parseChildren children = Ok children1.
Proof.
  induction 1 as [ | c cs [c1 Hc] _ [cs1 Hcs]]; cbn [parseChildren].
  - eexists. reflexivity.
  - rewrite Hc, Hcs. eexists. reflexivity.
Qed.

(** ** The merge reduction *)

Lemma mergeIfNoConflict_Some (a p m : ProjectionComponent) :
  mergeIfNoConflict a p = Some m → (m = a ∨ m = p) ∧ size a = size p.
Proof.
  unfold mergeIfNoConflict, mergeIfNoConflict_side. cbv zeta.
  case_bool_decide as Hsize; [ | discriminate].
  destruct (allPropertiesShared a p).
  - intros [= <-]. auto.
  - case_bool_decide.
    + intros [= <-]. auto.
    + case_bool_decide; [ | discriminate]. intros [= <-]. auto.
Qed.

Lemma elem_of_childComponents_cons (c : Model) (cs : list Model) (p : ProjectionComponent) :
  p ∈ childComponents (c :: cs) ↔ projection (node c) = Some p ∨ p ∈ childComponents cs.
Proof.
  unfold childComponents. simpl.
  destruct (projection (node c)) as [q | ]; simpl.
  - rewrite elem_of_cons. split; intros [H | H]; auto; left; congruence.
  - split; [auto | ]. intros [H | H]; [discriminate | exact H].
Qed.

Lemma elem_of_childComponents (cs : list Model) (p : ProjectionComponent) :
  p ∈ childComponents cs ↔ ∃ c, c ∈ cs ∧ projection (node c) = Some p.
Proof.
  unfold childComponents. rewrite list_elem_of_omap. reflexivity.
Qed.

(** When the reduction succeeds with a representative, the representative
    is the starting component or the component of a child, and all
    components seen have the size of the representative. *)
Lemma mergableEvery_success (a0 : option ProjectionComponent) (cs : list Model)
    (acc : ProjectionComponent) :
  mergableEvery a0 cs = (Some acc, true) →
  (a0 = Some acc ∨ acc ∈ childComponents cs)
  ∧ (∀ a, a0 = Some a → size a = size acc)
  ∧ (∀ p, p ∈ childComponents cs → size p = size acc).
Proof.
  revert a0. induction cs as [ | c cs IH]; intros a0; cbn [mergableEvery].
  - intros [= ->]. split; [auto | ]. split.
    + intros a [= ->]. reflexivity.
    + intros p Hp. inversion Hp.
  - destruct (projection (node c)) as [p | ] eqn:Hp.
    + destruct a0 as [a | ].
      * destruct (mergeIfNoConflict a p) as [m | ] eqn:Hm; [ | discriminate].
        intros H. apply IH in H as (Hacc & Hsize0 & Hsizes).
        apply mergeIfNoConflict_Some in Hm as [Hm Hap].
        assert (Hma : size m = size acc) by (apply Hsize0; reflexivity).
        assert (Ha : size a = size acc) by (destruct Hm as [-> | ->]; congruence).
        assert (Hpp : size p = size acc) by congruence.
        split; [ | split].
        -- destruct Hacc as [[= <-] | Hacc].
           ++ destruct Hm as [-> | ->]; [auto | ].
              right. apply elem_of_childComponents_cons. auto.
           ++ right. apply elem_of_childComponents_cons. auto.
        -- intros a' [= <-]. exact Ha.
        -- intros q Hq. apply elem_of_childComponents_cons in Hq as [Hq | Hq].
           ++ assert (q = p) as -> by congruence. exact Hpp.
           ++ apply Hsizes, Hq.
      * intros H. apply IH in H as (Hacc & Hsize0 & Hsizes).
        split; [ | split].
        -- right. apply elem_of_childComponents_cons.
           destruct Hacc as [[= <-] | Hacc]; auto.
        -- intros a' [=].
        -- intros q Hq. apply elem_of_childComponents_cons in Hq as [Hq | Hq].
           ++ assert (q = p) as -> by congruence. apply Hsize0. reflexivity.
           ++ apply Hsizes, Hq.
    + intros H. apply IH in H as (Hacc & Hsize0 & Hsizes).
      split; [ | split].
      * destruct Hacc as [Hacc | Hacc]; [auto | ].
        right. apply elem_of_childComponents_cons. auto.
      * exact Hsize0.
      * intros q Hq. apply elem_of_childComponents_cons in Hq as [Hq | Hq]; [congruence | ].
        apply Hsizes, Hq.
Qed.

(** The reduction fails exactly when some merge attempt between the
    accumulator and the component of a child returns [null]. *)
Lemma mergableEvery_failure (a0 : option ProjectionComponent) (cs : list Model) :
  (mergableEvery a0 cs).2 = false ↔
  ∃ pre child post a p,
    cs = pre ++ child :: post
    ∧ mergableEvery a0 pre = (Some a, true)
    ∧ projection (node child) = Some p
    ∧ mergeIfNoConflict a p = None.
Proof.
  revert a0. induction cs as [ | c cs IH]; intros a0; cbn [mergableEvery].
  - split; [discriminate | ].
    intros (pre & child & post & a & p & Heq & _). destruct pre; discriminate.
  - split.
    + intros Hfail.
      destruct (projection (node c)) as [p | ] eqn:Hp.
      * destruct a0 as [a | ].
        -- destruct (mergeIfNoConflict a p) as [m | ] eqn:Hm.
           ++ apply IH in Hfail as (pre & child & post & a' & p' & -> & Hpre & Hchild & Hnone).
              exists (c :: pre), child, post, a', p'. cbn [mergableEvery].
              rewrite Hp, Hm. auto.
           ++ exists [], c, cs, a, p. auto.
        -- apply IH in Hfail as (pre & child & post & a' & p' & -> & Hpre & Hchild & Hnone).
           exists (c :: pre), child, post, a', p'. cbn [mergableEvery].
           rewrite Hp. auto.
      * apply IH in Hfail as (pre & child & post & a' & p' & -> & Hpre & Hchild & Hnone).
        exists (c :: pre), child, post, a', p'. cbn [mergableEvery].
        rewrite Hp. auto.
    + intros (pre & child & post & a & p & Heq & Hpre & Hchild & Hnone).
      destruct pre as [ | c' pre].
      * cbn in Heq. injection Heq as -> ->. cbn in Hpre. injection Hpre as ->.
        rewrite Hchild, Hnone. reflexivity.
      * cbn in Heq. injection Heq as -> ->. cbn [mergableEvery] in Hpre.
        destruct (projection (node c')) as [q | ] eqn:Hq.
        -- destruct a0 as [a1 | ].
           ++ destruct (mergeIfNoConflict a1 q) as [m | ] eqn:Hm; [ | discriminate].
              apply IH. exists pre, child, post, a, p. auto.
           ++ apply IH. exists pre, child, post, a, p. auto.
        -- apply IH. exists pre, child, post, a, p. auto.
Qed.

(** ** The promotion loop *)

Lemma setData_setData (c : ProjectionComponent) (x y : option (list DataRef)) :
  setData (setData c x) y = setData c y.
Proof. reflexivity. Qed.

Lemma setData_id (c : ProjectionComponent) : setData c (data c) = c.
Proof. destruct c. reflexivity. Qed.

(** The loop does not throw when the promoted component has a data list
    as soon as some child is fit-enabled; it then appends the fit data of
    the children in order, turns each child into [promotedChild], and makes
    the mutations of [promotionLog]. *)
Lemma promoteChildren_Ok (name : string) (i : nat) (cs : list Model)
    (mp : ProjectionComponent) :
  (∀ p, p ∈ childComponents cs → isFit p = true → is_Some (data mp)) →
  promoteChildren name i cs mp
  = Ok (setData mp ((λ d, d ++ childFitData cs) <$> data mp),
        map (promotedChild name) cs,
        promotionLog name i cs).
Proof.
  revert i mp. induction cs as [ | c cs IH]; intros i mp Hfit.
  - cbn [promoteChildren childFitData flat_map map promotionLog].
    destruct mp as [e im sp sz [d | ] mg]; cbn; [rewrite app_nil_r | ]; reflexivity.
  - cbn [promoteChildren promotionLog map].
    unfold promotedChild at 1. unfold childFitData. cbn [flat_map].
    fold (childFitData cs).
    destruct (projection (node c)) as [p | ] eqn:Hp.
    + destruct (isFit p) eqn:Hisfit.
      * assert (Hmp : is_Some (data mp)).
        { apply (Hfit p); [ | exact Hisfit].
          apply elem_of_childComponents_cons. auto. }
        destruct Hmp as [l Hl]. unfold pushData. rewrite Hl.
        cbn [mbind result_bind].
        rewrite IH.
        -- cbn [mbind result_bind data setData fmap option_fmap option_map].
           rewrite setData_setData, <- app_assoc. reflexivity.
        -- intros q _ _. cbn. eauto.
      * cbn [mbind result_bind].
        rewrite IH.
        -- cbn [mbind result_bind].
           assert (Hd : data p = None).
           { unfold isFit in Hisfit. apply bool_decide_eq_false in Hisfit.
             destruct (data p); [exfalso; apply Hisfit; eauto | reflexivity]. }
           rewrite Hd. reflexivity.
        -- intros q Hq. apply Hfit. apply elem_of_childComponents_cons. auto.
    + rewrite IH.
      * reflexivity.
      * intros q Hq. apply Hfit. apply elem_of_childComponents_cons. auto.
Qed.

(** ** What parsing establishes *)

Lemma gatherFitData_not_empty (n : Node) (u : UnitSpec) : (gatherFitData n u).1 ≠ [].
Proof.
  unfold gatherFitData. cbv zeta.
  match goal with
  | |- context [bool_decide (length ?d = 0%nat)] => generalize d
  end.
  intros d. case_bool_decide as Hlen.
  - destruct (requestDataName_Main n) as [fullName n']. cbn.
    intros H. apply app_eq_nil in H as [_ H]. discriminate.
  - cbn. intros ->. apply Hlen. reflexivity.
Qed.

Lemma freshComponent_set_implicit (c : ProjectionComponent) (k : string) (v : Value) :
  freshComponent c → freshComponent (Split.set c k v false).
Proof. intros H. exact H. Qed.

Lemma parseUnitProjection_fresh (n n' : Node) (u : UnitSpec) (c : ProjectionComponent) :
  parseUnitProjection n u = (Some c, n') → freshComponent c.
Proof.
  unfold parseUnitProjection. destruct (hasProjection u); [ | discriminate].
  cbv zeta.
  match goal with
  | |- context [if negb ?b then Some [_; _] else None] => destruct (negb b)
  end.
  - pose proof (gatherFitData_not_empty n u) as Hne.
    destruct (gatherFitData n u) as [d n1]. cbn in Hne.
    match goal with
    | |- context [if ?b then Split.set _ _ _ _ else _] => destruct b
    end; intros [= <- <-]; (split; [reflexivity | split; [split; eauto | ]]);
      cbn; intros [= ->]; contradiction.
  - match goal with
    | |- context [if ?b then Split.set _ _ _ _ else _] => destruct b
    end; intros [= <- <-]; (split; [reflexivity | split; [ | discriminate]]);
      cbn; split; intros [? ?]; discriminate.
Qed.

Lemma parseUnitProjection_node (n n' : Node) (u : UnitSpec) (c : option ProjectionComponent) :
  parseUnitProjection n u = (c, n') →
  name n' = name n ∧ projectionNameMap n' = projectionNameMap n
  ∧ signalNameMap n' = signalNameMap n ∧ outputNodes n' = outputNodes n.
Proof.
  unfold parseUnitProjection. destruct (hasProjection u); [ | intros [= <- <-]; auto].
  cbv zeta.
  match goal with
  | |- context [if negb ?b then Some [_; _] else None] => destruct (negb b)
  end.
  - assert (Hg : ∀ d n1, gatherFitData n u = (d, n1) →
                 name n1 = name n ∧ projectionNameMap n1 = projectionNameMap n
                 ∧ signalNameMap n1 = signalNameMap n ∧ outputNodes n1 = outputNodes n).
    { unfold gatherFitData. cbv zeta. intros d n1.
      case_bool_decide; [ | intros [= <- <-]; auto].
      cbn. intros [= <- <-]. auto. }
    destruct (gatherFitData n u) as [d n1]. specialize (Hg d n1 eq_refl).
    intros [= <- <-]. exact Hg.
  - intros [= <- <-]. auto.
Qed.

Lemma promotedChild_allNodes (name : string) (c : Model) :
  allNodes dataNotEmpty c → allNodes dataNotEmpty (promotedChild name c).
Proof.
  intros Hc. unfold promotedChild.
  destruct (projection (node c)) as [p | ] eqn:Hp; [ | exact Hc].
  assert (Hroot : dataNotEmpty
                    (setProjection
                       (renameProjection (node c) (toStringU (Split.get p "name")) name)
                       (Some (setMerged p true)))).
  { intros q [= <-]. cbn.
    assert (Hn : dataNotEmpty (node c)) by (inversion Hc; assumption).
    apply Hn, Hp. }
  inversion Hc; subst; cbn [withNode]; constructor; assumption.
Qed.

Lemma mergeChildProjections_promotes (n : Node) (cs : list Model) (acc : ProjectionComponent) :
  Forall rootFresh cs →
  mergableEvery None cs = (Some acc, true) →
  mergeChildProjections n cs
  = Ok (Some (promotedComponent n acc cs),
        map (promotedChild (parseProjectionName n)) cs,
        promotionLog (parseProjectionName n) 0 cs).
Proof.
  intros Hfresh Hred. unfold mergeChildProjections. rewrite Hred.
  apply mergableEvery_success in Hred as (Hacc & _ & Hsizes).
  destruct Hacc as [? | Hacc]; [discriminate | ].
  assert (Hcomp : ∀ p, p ∈ childComponents cs → freshComponent p).
  { intros p Hp. apply elem_of_childComponents in Hp as (c & Hc & Hp).
    rewrite Forall_forall in Hfresh. exact (Hfresh c Hc p Hp). }
  cbv zeta. unfold duplicate. rewrite promoteChildren_Ok.
  - reflexivity.
  - intros p Hp Hisfit. cbn.
    destruct (Hcomp acc Hacc) as (_ & Hiff & _).
    destruct (Hcomp p Hp) as (_ & Hiffp & _).
    apply Hiff. rewrite <- (Hsizes p Hp). apply Hiffp.
    unfold isFit in Hisfit. apply bool_decide_eq_true in Hisfit. exact Hisfit.
Qed.

Lemma mergeChildProjections_aborts (n : Node) (cs : list Model) :
  (mergableEvery None cs).2 = false →
  mergeChildProjections n cs = Ok (None, cs, []).
Proof.
  unfold mergeChildProjections.
  destruct (mergableEvery None cs) as [[acc | ] ok]; cbn; [ | reflexivity].
  intros ->. reflexivity.
Qed.

Lemma promotedComponent_fresh (n : Node) (acc : ProjectionComponent) (cs : list Model) :
  freshComponent acc → freshComponent (promotedComponent n acc cs).
Proof.
  intros (_ & Hiff & Hne). unfold promotedComponent, freshComponent. cbn.
  split; [reflexivity | ]. split.
  - rewrite Hiff. destruct (data acc); cbn; split; intros [? ?]; eauto; discriminate.
  - destruct (data acc) as [[ | d ds] | ]; cbn; [contradiction | discriminate | discriminate].
Qed.

(** Parsing never throws; the component it leaves at the root is fresh,
    and no component of the tree has an empty data list. *)
Lemma parseProjection_invariant (m : Model) :
  ∃ m', parseProjection m = Ok m' ∧ rootFresh m' ∧ allNodes dataNotEmpty m'.
Proof.
  induction m as [n u | ty n children IH] using Model_nested_ind.
  - cbn [parseProjection].
    destruct (parseUnitProjection n u) as [comp n'] eqn:Hparse.
    eexists. split; [reflexivity | ].
    assert (Hfresh : ∀ c, comp = Some c → freshComponent c).
    { intros c ->. apply (parseUnitProjection_fresh n n' u c Hparse). }
    split.
    + intros c Hc. apply Hfresh. exact Hc.
    + constructor. intros c Hc. apply (Hfresh c Hc).
  - destruct children as [ | c0 cs0].
    { eexists. split; [reflexivity | ]. split.
      - intros c [=].
      - constructor; [intros c [=] | constructor]. }
    set (children := c0 :: cs0) in *.
    assert (Hchildren : ∃ children1, parseChildren children = Ok children1
                         ∧ Forall rootFresh children1
                         ∧ Forall (allNodes dataNotEmpty) children1).
    { clearbody children. induction IH as [ | c cs (c1 & Hc1 & Hf1 & Ha1) _ IHcs].
      - exists []. repeat constructor.
      - destruct IHcs as (cs1 & Hcs1 & Hfs & Has).
        exists (c1 :: cs1). cbn [parseChildren]. rewrite Hc1, Hcs1.
        split; [reflexivity | ]. split; constructor; assumption. }
    destruct Hchildren as (children1 & Hparse & Hfresh & Hall).
    rewrite parseProjection_composite by discriminate. rewrite Hparse.
    cbn [mbind result_bind].
    destruct (mergableEvery None children1) as [acc ok] eqn:Hred.
    destruct ok; [destruct acc as [acc | ] | ].
    + rewrite (mergeChildProjections_promotes n children1 acc Hfresh Hred).
      cbn [mbind result_bind]. eexists. split; [reflexivity | ].
      assert (Hacc : freshComponent acc).
      { apply mergableEvery_success in Hred as ([? | Hacc] & _); [discriminate | ].
        apply elem_of_childComponents in Hacc as (c & Hc & Hp).
        rewrite Forall_forall in Hfresh. exact (Hfresh c Hc acc Hp). }
      pose proof (promotedComponent_fresh n acc children1 Hacc) as Hnew.
      split.
      * intros c [= <-]. exact Hnew.
      * constructor.
        -- intros c [= <-]. apply Hnew.
        -- apply Forall_map. eapply Forall_impl; [exact Hall | ].
           intros c Hc. apply promotedChild_allNodes, Hc.
    + unfold mergeChildProjections. rewrite Hred. cbn [mbind result_bind].
      eexists. split; [reflexivity | ]. split.
      * intros c [=].
      * constructor; [intros c [=] | exact Hall].
    + rewrite mergeChildProjections_aborts by (rewrite Hred; reflexivity).
      cbn [mbind result_bind]. eexists. split; [reflexivity | ]. split.
      * intros c [=].
      * constructor; [intros c [=] | exact Hall].
Qed.

Lemma parseChildren_fresh (children children1 : list Model) :
  parseChildren children = Ok children1 →
  Forall rootFresh children1 ∧ Forall (allNodes dataNotEmpty) children1.
Proof.
  intros H. apply parseChildren_Ok_inv in H.
  induction H as [ | c c1 cs cs1 Hc _ [IH1 IH2]]; [split; constructor | ].
  destruct (parseProjection_invariant c) as (c' & Hc' & Hfresh & Hall).
  assert (c' = c1) as -> by congruence.
  split; constructor; assumption.
Qed.

(** ** Failure of the merge reduction *)

(** C4: when, among the parsed children of a composite model, a merge
    attempt between the accumulator and the component of a child returns
    [null], the composite gets no projection component, nothing is thrown,
    and the children are exactly as their own parsing left them: none is
    renamed, and the component of each is still live. *)
Theorem merge_failure_keeps_children_apart (ty : CompositeType) (n : Node)
    (children children1 pre post : list Model) (child : Model)
    (a p : ProjectionComponent) :
  children ≠ [] →
  parseChildren children = Ok children1 →
  children1 = pre ++ child :: post →
  mergableEvery None pre = (Some a, true) →
  projection (node child) = Some p →
  mergeIfNoConflict a p = None →
  mergeChildProjections n children1 = Ok (None, children1, [])
  ∧ parseProjection (CompositeModel ty n children)
    = Ok (CompositeModel ty (setProjection n None) children1)
  ∧ Forall (λ c, ∀ q, projection (node c) = Some q → merged q = false) children1.
Proof.
  intros Hne Hparse Hsplit Hpre Hchild Hnone.
  assert (Hfail : (mergableEvery None children1).2 = false).
  { apply mergableEvery_failure. exists pre, child, post, a, p. auto. }
  pose proof (mergeChildProjections_aborts n children1 Hfail) as Habort.
  split; [exact Habort | ]. split.
  - rewrite parseProjection_composite by exact Hne.
    rewrite Hparse. cbn [mbind result_bind]. rewrite Habort. reflexivity.
  - apply parseChildren_fresh in Hparse as [Hfresh _].
    eapply Forall_impl; [exact Hfresh | ].
    intros c Hc q Hq. apply (Hc q Hq).
Qed.

(** ** Promotion *)

(** C2 (as the code has it): when the reduction over the parsed children
    succeeds with the representative [acc], the promoted component starts
    from a copy of the data list of [acc], which is the component of one of
    the children, and then receives, in child order, the fit-data lists of
    the children with a fit-enabled component: its data list is that of
    [acc] followed by that concatenation. *)
Theorem promoted_data_is_representative_then_children (ty : CompositeType) (n : Node)
    (children children1 : list Model) (acc : ProjectionComponent) :
  children ≠ [] →
  parseChildren children = Ok children1 →
  mergableEvery None children1 = (Some acc, true) →
  ∃ mp,
    parseProjection (CompositeModel ty n children)
    = Ok (CompositeModel ty (setProjection n (Some mp))
            (map (promotedChild (parseProjectionName n)) children1))
    ∧ acc ∈ childComponents children1
    ∧ explicit mp = specifiedProjection acc
    ∧ size mp = size acc
    ∧ data mp = (λ d0, d0 ++ childFitData children1) <$> data acc
    ∧ (∀ d0, data acc = Some d0 →
         d0 ≠ [] ∧ data mp = Some (d0 ++ childFitData children1)).
Proof.
  intros Hne Hparse Hred.
  pose proof (parseChildren_fresh children children1 Hparse) as [Hfresh _].
  exists (promotedComponent n acc children1).
  assert (Hacc : acc ∈ childComponents children1).
  { apply mergableEvery_success in Hred as ([? | Hacc] & _); [discriminate | exact Hacc]. }
  split; [ | split; [exact Hacc | ]].
  - rewrite parseProjection_composite by exact Hne.
    rewrite Hparse. cbn [mbind result_bind].
    rewrite (mergeChildProjections_promotes n children1 acc Hfresh Hred). reflexivity.
  - split; [reflexivity | ]. split; [reflexivity | ]. split; [reflexivity | ].
    intros d0 Hd0. split.
    + apply elem_of_childComponents in Hacc as (c & Hc & Hp).
      rewrite Forall_forall in Hfresh.
      destruct (Hfresh c Hc acc Hp) as (_ & _ & Hnotempty).
      intros ->. contradiction.
    + cbn. rewrite Hd0. reflexivity.
Qed.

Lemma merge_failure_keeps_children_apart_witness :
  let children1 := map Samples.parsed Samples.conflictingChildren in
  mergeChildProjections (Samples.seededNode "") children1 = Ok (None, children1, [])
  ∧ parseProjection (Samples.layer Samples.conflictingChildren)
    = Ok (CompositeModel Layer (setProjection (Samples.seededNode "") None) children1)
  ∧ Forall (λ c, ∀ q, projection (node c) = Some q → merged q = false) children1.
Proof.
  intros children1.
  apply (merge_failure_keeps_children_apart Layer (Samples.seededNode "")
           Samples.conflictingChildren children1
           [Samples.parsed Samples.shapeChild] [] (Samples.parsed Samples.scaledChild)
           (Samples.rootComponent (Samples.parsed Samples.shapeChild))
           (Samples.rootComponent (Samples.parsed Samples.scaledChild))).
  - discriminate.
  - vm_compute. reflexivity.
  - reflexivity.
  - vm_compute. reflexivity.
  - vm_compute. reflexivity.
  - vm_compute. reflexivity.
Defined.

Lemma promoted_data_is_representative_then_children_witness :
  let children1 := map Samples.parsed Samples.mergingChildren in
  let acc := Samples.rootComponent (Samples.parsed Samples.shapeChild) in
  ∃ mp,
    parseProjection (Samples.layer Samples.mergingChildren)
    = Ok (CompositeModel Layer (setProjection (Samples.seededNode "") (Some mp))
            (map (promotedChild (parseProjectionName (Samples.seededNode ""))) children1))
    ∧ acc ∈ childComponents children1
    ∧ explicit mp = specifiedProjection acc
    ∧ size mp = size acc
    ∧ data mp = (λ d0, d0 ++ childFitData children1) <$> data acc
    ∧ (∀ d0, data acc = Some d0 →
         d0 ≠ [] ∧ data mp = Some (d0 ++ childFitData children1)).
Proof.
  intros children1 acc.
  apply (promoted_data_is_representative_then_children Layer (Samples.seededNode "")
           Samples.mergingChildren children1 acc).
  - discriminate.
  - vm_compute. reflexivity.
  - vm_compute. reflexivity.
Defined.

(** C2, as the claim words it, fails: children with fit lists [[d1]], [[]]
    and [[d3]] promote to [[d1; d1; d3]], the list of the representative
    (the first child) coming once more in front of the concatenation
    [[d1; d3]]; and parsing a layer of a shape view, a bar view and a point
    view promotes the main source of the shape view twice. *)
Lemma promoted_data_repeats_representative :
  (∃ mp children' log,
     mergeChildProjections (Samples.seededNode "") Samples.resolvedChildren
     = Ok (Some mp, children', log)
     ∧ data mp = Some [Samples.d1; Samples.d1; Samples.d3]
     ∧ childFitData Samples.resolvedChildren = [Samples.d1; Samples.d3])
  ∧ (∃ n mp children',
       parseProjection (Samples.layer Samples.mergingChildren)
       = Ok (CompositeModel Layer n children')
       ∧ projection n = Some mp
       ∧ data mp = Some [DataName "layer_0_main"; DataName "layer_0_main";
                         DataSignal "layer_2_geojson_0"]
       ∧ childFitData (map Samples.parsed Samples.mergingChildren)
         = [DataName "layer_0_main"; DataSignal "layer_2_geojson_0"]).
Proof.
  split.
  - eexists _, _, _. split; [vm_compute; reflexivity | ].
    split; [reflexivity | vm_compute; reflexivity].
  - eexists _, _, _. split; [vm_compute; reflexivity | ].
    split; [reflexivity | ]. split; [reflexivity | vm_compute; reflexivity].
Qed.

(** ** Order of the mutations of the promotion *)






(** Every child with a component is renamed and then flagged. *)
Lemma promotionLog_child (name : string) (i k : nat) (cs : list Model)
    (c : Model) (p : ProjectionComponent) :
  cs !! k = Some c → projection (node c) = Some p →
  ∃ j, promotionLog name i cs !! j
       = Some (EvRename (i + k) (toStringU (Split.get p "name")) name)
       ∧ promotionLog name i cs !! S j = Some (EvMerged (i + k)).
Proof.
  revert i k. induction cs as [ | c0 cs IH]; intros i k Hk Hp; [discriminate | ].
  cbn [promotionLog]. destruct k as [ | k].
  - injection Hk as ->. rewrite Hp, Nat.add_0_r.
    exists (length (if isFit p then [EvPushData i (default [] (data p))] else [])).
    split.
    + rewrite lookup_app_r by lia. rewrite Nat.sub_diag. reflexivity.
    + rewrite lookup_app_r by lia.
      replace (S (length (if isFit p then [EvPushData i (default [] (data p))] else []))
               - length (if isFit p then [EvPushData i (default [] (data p))] else []))%nat
        with 1%nat by lia.
      reflexivity.
  - cbn in Hk. destruct (IH (S i) k Hk Hp) as (j & Hj1 & Hj2).
    replace (S i + k)%nat with (i + S k)%nat in Hj1, Hj2 by lia.
    destruct (projection (node c0)) as [p0 | ]; [ | exists j; auto].
    set (pre := (if isFit p0 then [EvPushData i (default [] (data p0))] else [])
                ++ [EvRename i (toStringU (Split.get p0 "name")) name; EvMerged i]).
    exists (length pre + j)%nat.
    rewrite !(app_assoc _ [_; _] _). fold pre.
    split.
    + rewrite lookup_app_r by lia.
      replace (length pre + j - length pre)%nat with j by lia. exact Hj1.
    + rewrite lookup_app_r by lia.
      replace (S (length pre + j) - length pre)%nat with (S j) by lia. exact Hj2.
Qed.



(** The lookup of the projection name of a model is the own entry of its
    name map under the model's projection key, if any. *)
Lemma projectionName_entry (n : Node) :
  projectionName n = projectionNameMap n !! getName n "projection".
Proof.
  unfold projectionName. rewrite NameMap_asString_get. unfold NameMap.has.
  destruct (projectionNameMap n !! getName n "projection") as [v | ] eqn:Hv.
  - rewrite bool_decide_eq_true_2 by eauto. rewrite orb_true_r. reflexivity.
  - destruct (_ || _); reflexivity.
Qed.
















(** ** The missing fit source *)

Lemma assembleProjections_composite (ty : CompositeType) (n : Node) (children : list Model) :
  ty ≠ Facet →
  assembleProjections (CompositeModel ty n children)
  = (own ← assembleProjectionForModel n; assembleChildren own children).
Proof. destruct ty; [contradiction | reflexivity | reflexivity]. Qed.









(** ** The geographic point node *)

Lemma GeoPoint_parseAll_unnamed (parent : DataFlowNode) (n : Node) (u : UnitSpec) :
  projectionName n = None ∨ projectionName n = Some "" →
  GeoPoint.parseAll parent n u = parent.
Proof. unfold GeoPoint.parseAll. intros [-> | ->]; reflexivity. Qed.

(** C8 (as the code has it): the projection name of a geographic point node
    is looked up when [parseAll] constructs the node and is stored in it as
    a string; [assemble] emits the stored string.  So [parseAll] returns
    the parent unchanged, or one or two nodes chained on it that all carry
    the name [projectionName] gave at that time, and the assembled
    descriptor of a node carries the name the node was constructed with,
    whatever happens to the name map afterwards. *)
Theorem geopoint_projection_resolved_at_construction
    (parent : DataFlowNode) (n : Node) (u : UnitSpec) :
  (GeoPoint.parseAll parent n u = parent
   ∨ ∃ p, projectionName n = Some p ∧ p ≠ ""
          ∧ ((∃ f a, GeoPoint.parseAll parent n u = GeoPointNode (Some parent) p f a)
             ∨ (∃ f1 a1 f2 a2,
                  GeoPoint.parseAll parent n u
                  = GeoPointNode (Some (GeoPointNode (Some parent) p f1 a1)) p f2 a2)))
  ∧ (∀ par p f a,
       GeoPoint.assemble (GeoPointNode par p f a)
       = Some (mkVgGeoPointTransform "geopoint" p f a))
  ∧ (∀ t, GeoPoint.parseAll parent n u ≠ parent →
          GeoPoint.assemble (GeoPoint.parseAll parent n u) = Some t →
          projectionName n = Some (vg_projection t)).
Proof.
  split; [ | split].
  - unfold GeoPoint.parseAll.
    destruct (projectionName n) as [p | ]; [ | left; reflexivity].
    case_bool_decide as Hp; [left; reflexivity | ].
    cbn [foldl fst snd].
    destruct (GeoPoint.truthyField (GeoPoint.coordinate u LONGITUDE)
              || GeoPoint.truthyField (GeoPoint.coordinate u LATITUDE));
      destruct (GeoPoint.truthyField (GeoPoint.coordinate u LONGITUDE2)
                || GeoPoint.truthyField (GeoPoint.coordinate u LATITUDE2)).
    + right. exists p. split; [reflexivity | ]. split; [exact Hp | ].
      right. eexists _, _, _, _. reflexivity.
    + right. exists p. split; [reflexivity | ]. split; [exact Hp | ].
      left. eexists _, _. reflexivity.
    + right. exists p. split; [reflexivity | ]. split; [exact Hp | ].
      left. eexists _, _. reflexivity.
    + left. reflexivity.
  - reflexivity.
  - intros t Hnew Ht. unfold GeoPoint.parseAll in *.
    destruct (projectionName n) as [p | ]; [ | contradiction].
    case_bool_decide as Hp; [contradiction | ].
    cbn [foldl fst snd] in *.
    destruct (GeoPoint.truthyField (GeoPoint.coordinate u LONGITUDE)
              || GeoPoint.truthyField (GeoPoint.coordinate u LATITUDE));
      destruct (GeoPoint.truthyField (GeoPoint.coordinate u LONGITUDE2)
                || GeoPoint.truthyField (GeoPoint.coordinate u LATITUDE2));
      try contradiction; cbn in Ht; injection Ht as <-; reflexivity.
Qed.

Lemma geopoint_projection_resolved_at_construction_witness :
  let n := node (Samples.parsed Samples.pointChild) in
  let d := GeoPoint.parseAll (OtherNode "source") n Samples.pointSpec in
  d ≠ OtherNode "source"
  ∧ GeoPoint.assemble d
    = Some (mkVgGeoPointTransform "geopoint" "layer_2_projection"
              (Some (FieldName "lon"), Some (FieldName "lat")) ("layer_2_x", "layer_2_y"))
  ∧ projectionName n = Some "layer_2_projection".
Proof.
  intros n d.
  assert (Hnew : d ≠ OtherNode "source") by (vm_compute; discriminate).
  assert (Ht : GeoPoint.assemble d
               = Some (mkVgGeoPointTransform "geopoint" "layer_2_projection"
                         (Some (FieldName "lon"), Some (FieldName "lat"))
                         ("layer_2_x", "layer_2_y")))
    by (vm_compute; reflexivity).
  split; [exact Hnew | ]. split; [exact Ht | ].
  destruct (geopoint_projection_resolved_at_construction
              (OtherNode "source") n Samples.pointSpec) as (_ & _ & Hname).
  exact (Hname _ Hnew Ht).
Defined.

(** C8, as the claim words it, fails: a node constructed for a point view
    after the view's own parsing carries the name [layer_2_projection];
    when the layer then promotes a shared projection, the view's lookup
    gives [projection] and its own component is flagged, but the assembled
    descriptor of the node still names [layer_2_projection]. *)
Lemma geopoint_keeps_name_of_construction_time :
  let child1 := Samples.parsed Samples.pointChild in
  let d := GeoPoint.parseAll (OtherNode "source") (node child1) Samples.pointSpec in
  ∃ t n children2 child2 c,
    GeoPoint.assemble d = Some t
    ∧ vg_projection t = "layer_2_projection"
    ∧ map Samples.parsed Samples.mergingChildren !! 2%nat = Some child1
    ∧ parseProjection (Samples.layer Samples.mergingChildren)
      = Ok (CompositeModel Layer n children2)
    ∧ children2 !! 2%nat = Some child2
    ∧ projection (node child2) = Some c ∧ merged c = true
    ∧ projectionName (node child2) = Some "projection"
    ∧ projectionName (node child2) ≠ Some (vg_projection t).
Proof.
  intros child1 d.
  eexists _, _, _, _, _.
  split; [vm_compute; reflexivity | ].
  split; [reflexivity | ].
  split; [reflexivity | ].
  split; [vm_compute; reflexivity | ].
  split; [reflexivity | ].
  split; [reflexivity | ].
  split; [reflexivity | ].
  split; [vm_compute; reflexivity | ].
  vm_compute. discriminate.
Qed.

(** * Further properties of the code *)

(** ** [mergeIfNoConflict] *)

Lemma propertiesAgree_sym (A B : ProjectionComponent) :
  propertiesAgree A B → propertiesAgree B A.
Proof.
  intros H prop Hprop. destruct (H prop Hprop) as [[HA HB] | (v & HA & HB)].
  - left. auto.
  - right. exists v. auto.
Qed.

Lemma propertiesAgree_refl (A : ProjectionComponent) : propertiesAgree A A.
Proof.
  intros prop _. destruct (explicit A !! prop) as [v | ]; [right; eauto | left; auto].
Qed.

Lemma mergeIfNoConflict_is_Some (A B : ProjectionComponent) :
  is_Some (mergeIfNoConflict A B) ↔
    size A = size B ∧ (propertiesAgree A B ∨ explicit A = ∅ ∨ explicit B = ∅).
Proof.
  unfold mergeIfNoConflict, mergeIfNoConflict_side. cbv zeta.
  pose proof (allPropertiesShared_agree A B) as Hagree.
  case_bool_decide as Hsize; simpl.
  - destruct (allPropertiesShared A B) eqn:Hshared; simpl.
    + split; [intros _; split; [exact Hsize | left; apply Hagree; reflexivity] | eauto].
    + case_bool_decide as HA; simpl.
      { split; [intros _; split; [exact Hsize | auto] | eauto]. }
      case_bool_decide as HB; simpl.
      { split; [intros _; split; [exact Hsize | auto] | eauto]. }
      split; [intros [? ?]; discriminate | ].
      intros [_ [HP | [? | ?]]]; try contradiction.
      apply Hagree in HP. discriminate.
  - split; [intros [? ?]; discriminate | intros [? _]; contradiction].
Qed.

(** X1: whether two components merge does not depend on their order,
    although the component returned may; a merge returns one of its two
    arguments and only for equal sizes; and a component merges with itself,
    giving itself. *)
Theorem mergeIfNoConflict_symmetric_success (A B : ProjectionComponent) :
  (is_Some (mergeIfNoConflict A B) ↔ is_Some (mergeIfNoConflict B A))
  ∧ (∀ m, mergeIfNoConflict A B = Some m → (m = A ∨ m = B) ∧ size A = size B)
  ∧ mergeIfNoConflict A A = Some A.
Proof.
  split; [ | split].
  - rewrite !mergeIfNoConflict_is_Some. split.
    + intros [Hs [H | [H | H]]]; (split; [congruence | ]); auto using propertiesAgree_sym.
    + intros [Hs [H | [H | H]]]; (split; [congruence | ]); auto using propertiesAgree_sym.
  - intros m. apply mergeIfNoConflict_Some.
  - unfold mergeIfNoConflict, mergeIfNoConflict_side. cbv zeta.
    rewrite bool_decide_eq_true_2 by reflexivity.
    rewrite (proj2 (allPropertiesShared_agree A A) (propertiesAgree_refl A)).
    reflexivity.
Qed.

(** The order can change which component is returned: the side with
    explicit properties is returned from either position. *)
Lemma mergeIfNoConflict_symmetric_success_witness :
  mergeIfNoConflict Samples.plain Samples.mercator = Some Samples.mercator
  ∧ mergeIfNoConflict Samples.mercator Samples.plain = Some Samples.mercator
  ∧ is_Some (mergeIfNoConflict Samples.mercator Samples.plain).
Proof.
  split; [vm_compute; reflexivity | ]. split; [vm_compute; reflexivity | ].
  apply (mergeIfNoConflict_symmetric_success Samples.plain Samples.mercator).
  exists Samples.mercator. vm_compute. reflexivity.
Defined.

(** ** Parsing never throws *)

(** The kind, the name and the number of children of a model. *)
Lemma parseProjection_shape (m m' : Model) :
  parseProjection m = Ok m' →
  name (node m') = name (node m)
  ∧ match m, m' with
    | UnitModel _ u, UnitModel _ u' => u = u'
    | CompositeModel ty _ cs, CompositeModel ty' _ cs' =>
        ty = ty' ∧ length cs = length cs'
    | _, _ => False
    end.
Proof.
  destruct m as [n u | ty n children].
  - cbn [parseProjection].
    destruct (parseUnitProjection n u) as [comp n'] eqn:Hparse.
    intros [= <-]. apply parseUnitProjection_node in Hparse as (Hname & _).
    split; [exact Hname | reflexivity].
  - destruct children as [ | c0 cs0].
    { intros [= <-]. split; [reflexivity | split; reflexivity]. }
    rewrite parseProjection_composite by discriminate.
    destruct (parseChildren (c0 :: cs0)) as [children1 | e] eqn:Hparse; [ | discriminate].
    cbn [mbind result_bind].
    pose proof (parseChildren_Ok_inv _ _ Hparse) as Hlen. apply Forall2_length in Hlen.
    pose proof (parseChildren_fresh _ _ Hparse) as [Hfresh _].
    destruct (mergableEvery None children1) as [acc ok] eqn:Hred.
    destruct ok; [destruct acc as [acc | ] | ].
    + rewrite (mergeChildProjections_promotes n children1 acc Hfresh Hred).
      cbn [mbind result_bind]. intros [= <-].
      split; [reflexivity | ]. split; [reflexivity | ].
      rewrite length_map. exact Hlen.
    + unfold mergeChildProjections. rewrite Hred. cbn [mbind result_bind].
      intros [= <-]. split; [reflexivity | ]. split; [reflexivity | exact Hlen].
    + rewrite mergeChildProjections_aborts by (rewrite Hred; reflexivity).
      cbn [mbind result_bind]. intros [= <-].
      split; [reflexivity | ]. split; [reflexivity | exact Hlen].
Qed.

(** X2: parsing the projections of any tree of models returns normally:
    the [push] on the data list of the promoted component never meets
    [undefined], because children that merge have equal sizes and a parsed
    component has a size exactly when it has a data list.  The component
    left at the root is live, and the tree keeps its name, its kind and the
    number of its children. *)
Theorem parseProjection_never_throws (m : Model) :
  ∃ m', parseProjection m = Ok m'
        ∧ (∀ c, projection (node m') = Some c →
             merged c = false ∧ (is_Some (size c) ↔ is_Some (data c)))
        ∧ name (node m') = name (node m)
        ∧ match m, m' with
          | UnitModel _ u, UnitModel _ u' => u = u'
          | CompositeModel ty _ cs, CompositeModel ty' _ cs' =>
              ty = ty' ∧ length cs = length cs'
          | _, _ => False
          end.
Proof.
  destruct (parseProjection_invariant m) as (m' & Hm' & Hfresh & _).
  exists m'. split; [exact Hm' | ]. split.
  - intros c Hc. destruct (Hfresh c Hc) as (Hmerged & Hiff & _). auto.
  - apply parseProjection_shape, Hm'.
Qed.

(** ** Children that merge *)

Lemma isFit_of_size (p q : ProjectionComponent) :
  freshComponent p → freshComponent q → size p = size q → isFit p = isFit q.
Proof.
  intros (_ & Hp & _) (_ & Hq & _) Hsize. unfold isFit.
  apply bool_decide_ext. rewrite <- Hp, <- Hq, Hsize. reflexivity.
Qed.

(** X3: when the reduction over the parsed children of a composite model
    succeeds, the representative is the component of one of the children,
    and every child that has a component has the size of the representative
    and is fit-enabled exactly when the representative is: fit-enabled and
    fixed projections never merge. *)
Theorem merged_children_share_size_and_fit (children children1 : list Model)
    (acc : ProjectionComponent) :
  parseChildren children = Ok children1 →
  mergableEvery None children1 = (Some acc, true) →
  acc ∈ childComponents children1
  ∧ ∀ p, p ∈ childComponents children1 → size p = size acc ∧ isFit p = isFit acc.
Proof.
  intros Hparse Hred.
  apply parseChildren_fresh in Hparse as [Hfresh _].
  assert (Hcomp : ∀ p, p ∈ childComponents children1 → freshComponent p).
  { intros p Hp. apply elem_of_childComponents in Hp as (c & Hc & Hp).
    rewrite Forall_forall in Hfresh. exact (Hfresh c Hc p Hp). }
  apply mergableEvery_success in Hred as ([? | Hacc] & _ & Hsizes); [discriminate | ].
  split; [exact Hacc | ].
  intros p Hp. split; [apply Hsizes, Hp | ].
  apply isFit_of_size; auto.
Qed.

Lemma merged_children_share_size_and_fit_witness :
  let children1 := map Samples.parsed Samples.mergingChildren in
  let acc := Samples.rootComponent (Samples.parsed Samples.shapeChild) in
  acc ∈ childComponents children1
  ∧ ∀ p, p ∈ childComponents children1 → size p = size acc ∧ isFit p = isFit acc.
Proof.
  intros children1 acc.
  apply (merged_children_share_size_and_fit Samples.mergingChildren children1 acc).
  - vm_compute. reflexivity.
  - vm_compute. reflexivity.
Defined.

(** ** The fit mode and the properties of a unit projection *)

Lemma replaceExprRef_spread_lookup (o : option Bag) (k : string) :
  spread (replaceExprRef o) !! k = signalRefOrValue <$> spread o !! k.
Proof.
  destruct o as [b | ]; cbn.
  - apply lookup_fmap.
  - rewrite lookup_empty. reflexivity.
Qed.

Lemma parseUnitProjection_unfold (n : Node) (u : UnitSpec) :
  hasProjection u = true →
  let p := spread (unitSpecifiedProjection u) in
  let fit := negb (notNullish (p !! "scale") || notNullish (p !! "translate")) in
  let bag := spread (replaceExprRef (unitSpecifiedProjection u))
             ∪ spread (replaceExprRef (configProjection u)) in
  let c0 := newProjectionComponent (parseProjectionName n) bag
              (if fit then Some [getSizeSignalRef n u Width; getSizeSignalRef n u Height]
               else None)
              (if fit then Some (gatherFitData n u).1 else None) in
  parseUnitProjection n u
  = (Some (if negb (truthyU (Split.get c0 "type"))
           then Split.set c0 "type" (VStr "equalEarth") false else c0),
     if fit then (gatherFitData n u).2 else n).
Proof.
  intros Hhas p fit bag c0. unfold parseUnitProjection. rewrite Hhas. cbv zeta.
  assert (Hfit : negb (match replaceExprRef (unitSpecifiedProjection u) with
                       | Some p0 => notNullish (p0 !! "scale") || notNullish (p0 !! "translate")
                       | None => false
                       end) = fit).
  { subst fit p. destruct (unitSpecifiedProjection u) as [b | ]; cbn.
    - rewrite !lookup_fmap, !notNullish_signalRefOrValue. reflexivity.
    - rewrite !lookup_empty. reflexivity. }
  rewrite Hfit. subst c0 bag.
  destruct fit; [destruct (gatherFitData n u) as [d n1] | ]; reflexivity.
Qed.

(** X4: a unit model without projection gets no component and its state is
    left alone.  A unit model with a projection gets a component that is
    fit-enabled exactly when the specified projection has neither a
    non-null [scale] nor a non-null [translate]; a fit-enabled component
    has the width and height signal references as its size and the gathered
    fit data as its data list; a fixed one has neither, and nothing is
    requested from the data component. *)
Theorem parseUnitProjection_fit_mode (n : Node) (u : UnitSpec) :
  (hasProjection u = false → parseUnitProjection n u = (None, n))
  ∧ (hasProjection u = true →
     ∃ c n', parseUnitProjection n u = (Some c, n')
       ∧ (isFit c = true ↔
            notNullish (spread (unitSpecifiedProjection u) !! "scale") = false
            ∧ notNullish (spread (unitSpecifiedProjection u) !! "translate") = false)
       ∧ (isFit c = true →
            size c = Some [getSizeSignalRef n u Width; getSizeSignalRef n u Height]
            ∧ data c = Some (gatherFitData n u).1
            ∧ n' = (gatherFitData n u).2)
       ∧ (isFit c = false → size c = None ∧ data c = None ∧ n' = n)).
Proof.
  split.
  - intros Hhas. unfold parseUnitProjection. rewrite Hhas. reflexivity.
  - intros Hhas. rewrite (parseUnitProjection_unfold n u Hhas). cbv zeta.
    eexists _, _. split; [reflexivity | ].
    destruct (notNullish (spread (unitSpecifiedProjection u) !! "scale")) eqn:Hs;
      destruct (notNullish (spread (unitSpecifiedProjection u) !! "translate")) eqn:Ht;
      cbn [orb negb];
      match goal with
      | |- context [if ?b then Split.set _ _ _ _ else _] => destruct b
      end; cbn;
      (split; [split; [try discriminate; auto | intros [? ?]; try discriminate; reflexivity] | ]);
      (split; [intros ?; try discriminate; auto | intros ?; try discriminate; auto]).
Qed.

(** X5: the explicit properties of a parsed unit component are those of the
    specified projection laid over those of the configuration, each with
    its expression reference turned into a signal reference; and when
    neither names a type the component has the implicit type
    [equalEarth]. *)
Theorem parseUnitProjection_properties (n n' : Node) (u : UnitSpec) (c : ProjectionComponent) :
  parseUnitProjection n u = (Some c, n') →
  specifiedProjection c = explicit c
  ∧ (∀ k v, spread (unitSpecifiedProjection u) !! k = Some v →
            explicit c !! k = Some (signalRefOrValue v))
  ∧ (∀ k, spread (unitSpecifiedProjection u) !! k = None →
          explicit c !! k = signalRefOrValue <$> spread (configProjection u) !! k)
  ∧ (spread (unitSpecifiedProjection u) !! "type" = None →
     spread (configProjection u) !! "type" = None →
     Split.get c "type" = Some (VStr "equalEarth"))
  ∧ (spread (unitSpecifiedProjection u) !! "name" = None →
     spread (configProjection u) !! "name" = None →
     Split.get c "name" = Some (VStr (getName n "projection"))).
Proof.
  intros Hparse.
  destruct (hasProjection u) eqn:Hhas;
    [ | unfold parseUnitProjection in Hparse; rewrite Hhas in Hparse; discriminate].
  rewrite (parseUnitProjection_unfold n u Hhas) in Hparse. cbv zeta in Hparse.
  injection Hparse as Hc _.
  set (bag := spread (replaceExprRef (unitSpecifiedProjection u))
              ∪ spread (replaceExprRef (configProjection u))) in *.
  assert (Hexplicit : explicit c = bag ∧ specifiedProjection c = bag
                      ∧ (bag !! "type" = None → Split.get c "type" = Some (VStr "equalEarth"))
                      ∧ (bag !! "name" = None →
                         Split.get c "name" = Some (VStr (getName n "projection")))).
  { match type of Hc with
    | (if ?b then _ else _) = _ => destruct b eqn:Hb
    end; subst c; cbn; (split; [reflexivity | split; [reflexivity | split]]);
      intros Hnone.
    - unfold Split.get. cbn. rewrite Hnone. reflexivity.
    - unfold Split.get. cbn. rewrite Hnone. reflexivity.
    - exfalso. unfold Split.get in Hb. cbn in Hb. rewrite Hnone in Hb.
      discriminate.
    - unfold Split.get. cbn. rewrite Hnone. reflexivity. }
  destruct Hexplicit as (He & Hsp & Htype & Hname).
  assert (Hlookup : ∀ k, bag !! k
                         = match signalRefOrValue <$> spread (unitSpecifiedProjection u) !! k with
                           | Some v => Some v
                           | None => signalRefOrValue <$> spread (configProjection u) !! k
                           end).
  { intros k. subst bag. rewrite lookup_union, !replaceExprRef_spread_lookup.
    destruct (spread (unitSpecifiedProjection u) !! k);
      destruct (spread (configProjection u) !! k); reflexivity. }
  split; [congruence | ]. split; [ | split; [ | split]].
  - intros k v Hk. rewrite He, Hlookup, Hk. reflexivity.
  - intros k Hk. rewrite He, Hlookup, Hk. reflexivity.
  - intros Hs Hcfg. apply Htype. rewrite Hlookup, Hs, Hcfg. reflexivity.
  - intros Hs Hcfg. apply Hname. rewrite Hlookup, Hs, Hcfg. reflexivity.
Qed.

Lemma parseUnitProjection_properties_witness :
  let r := parseUnitProjection (Samples.seededNode "") Samples.configuredSpec in
  let c := default Samples.plain r.1 in
  explicit c !! "center" = Some (VSignal "c")
  ∧ explicit c !! "rotate" = Some (VSignal "r")
  ∧ Split.get c "type" = Some (VStr "equalEarth")
  ∧ Split.get c "name" = Some (VStr "projection").
Proof.
  intros r c.
  destruct (parseUnitProjection_properties (Samples.seededNode "") r.2
              Samples.configuredSpec c)
    as (_ & Hspec & Hconfig & Htype & Hname).
  - vm_compute. reflexivity.
  - split; [apply (Hspec "center" (VExpr "c")); vm_compute; reflexivity | ].
    split; [rewrite (Hconfig "rotate") by (vm_compute; reflexivity); vm_compute; reflexivity | ].
    split; [apply Htype; vm_compute; reflexivity | ].
    apply Hname; vm_compute; reflexivity.
Defined.

(** ** The gathered fit data *)

(** X6: the fit data gathered for a unit model are, in this order, one
    signal for the primary coordinate pair, one for the secondary pair and
    one for a geojson shape field, for those that are present, named
    [geojson_0], [geojson_1], ... consecutively; only when there is none of
    them is the list the single name of the main data source, and only then
    is a data source requested (its reference count goes up by one). *)
Theorem gatherFitData_entries (n : Node) (u : UnitSpec) :
  let pair1 := defined (getFieldOrDatumDef (encoding u !! LONGITUDE))
               || defined (getFieldOrDatumDef (encoding u !! LATITUDE)) in
  let pair2 := defined (getFieldOrDatumDef (encoding u !! LONGITUDE2))
               || defined (getFieldOrDatumDef (encoding u !! LATITUDE2)) in
  let shape := channelHasField u SHAPE
               && bool_decide (typedFieldDefType u SHAPE = Some GEOJSON) in
  let k := ((if pair1 then 1 else 0) + (if pair2 then 1 else 0)
            + (if shape then 1 else 0))%nat in
  (k = 0%nat →
     gatherFitData n u = ([DataName (getName n "main")], (requestDataName_Main n).2)
     ∧ outputNodeRefCounts (requestDataName_Main n).2 !! getName n "main"
       = Some (S (default 0%nat (outputNodeRefCounts n !! getName n "main"))))
  ∧ ((0 < k)%nat →
     gatherFitData n u
     = (map (λ i, DataSignal (getName n ("geojson_" +:+ pretty i))) (seq 0 k), n)).
Proof.
  intros pair1 pair2 shape k. subst k.
  unfold gatherFitData. cbv zeta. cbn [foldl fst snd].
  fold pair1 pair2 shape.
  destruct pair1, pair2, shape; cbn [length app Nat.add]; split;
    try (intros H; exfalso; lia); intros _.
  all: try reflexivity.
  split; [reflexivity | ].
  unfold requestDataName_Main. cbn. rewrite lookup_insert_eq. f_equal. lia.
Qed.

Lemma gatherFitData_entries_witness :
  gatherFitData (Samples.seededNode "layer_0") Samples.fullGeoSpec
  = ([DataSignal "layer_0_geojson_0"; DataSignal "layer_0_geojson_1";
      DataSignal "layer_0_geojson_2"], Samples.seededNode "layer_0")
  ∧ (gatherFitData (Samples.seededNode "layer_0") Samples.shapeSpec).1
    = [DataName "layer_0_main"].
Proof.
  destruct (gatherFitData_entries (Samples.seededNode "layer_0") Samples.fullGeoSpec)
    as [_ Hsome].
  destruct (gatherFitData_entries (Samples.seededNode "layer_0") Samples.shapeSpec)
    as [Hnone _].
  split.
  - rewrite Hsome by (vm_compute; lia). vm_compute. reflexivity.
  - destruct Hnone as [-> _]; [vm_compute; reflexivity | ]. vm_compute. reflexivity.
Defined.

(** ** Assembling a fixed projection, and the type errors of assembly *)

(** X7: a live component without data list assembles to one entry: the
    properties of the component, plus the translate that centres the
    projection in the view unless the component has a translate of its
    own; its size, even one holding [null], plays no part. *)
Theorem assemble_fixed_projection (n : Node) (c : ProjectionComponent) :
  projection n = Some c → merged c = false → data c = None →
  ∃ entry,
    assembleProjectionForModel n = Ok [entry]
    ∧ (∀ k v, Split.combine c !! k = Some v → entry !! k = Some v)
    ∧ (Split.combine c !! "translate" = None →
       entry !! "translate" = Some (VSignal "[width / 2, height / 2]"))
    ∧ (∀ k, k ≠ "translate" → entry !! k = Split.combine c !! k).
Proof.
  intros Hc Hmerged Hdata. unfold assembleProjectionForModel.
  rewrite Hc, Hmerged, Hdata. eexists. split; [reflexivity | ].
  split; [ | split].
  - intros k v Hk. apply lookup_union_Some_l, Hk.
  - intros Hnone. rewrite lookup_union_r by exact Hnone.
    rewrite withName_lookup_ne by discriminate. apply lookup_singleton_eq.
  - intros k Hk. rewrite lookup_union.
    destruct (Split.combine c !! k) as [v | ] eqn:Hv.
    + rewrite union_Some_l. reflexivity.
    + rewrite (left_id None _).
      destruct (decide (k = "name")) as [-> | Hname].
      * rewrite Hv. cbn. apply lookup_singleton_ne. discriminate.
      * rewrite withName_lookup_ne by exact Hname.
        apply lookup_singleton_ne. congruence.
Qed.

Lemma assemble_fixed_projection_witness :
  let n := node (Samples.parsed Samples.scaledChild) in
  ∃ entry,
    assembleProjectionForModel n = Ok [entry]
    ∧ entry !! "scale" = Some (VNum 100)
    ∧ entry !! "translate" = Some (VSignal "[width / 2, height / 2]")
    ∧ entry !! "name" = Some (VStr "layer_1_projection")
    ∧ entry !! "fit" = None.
Proof.
  intros n.
  destruct (assemble_fixed_projection n (Samples.rootComponent (Samples.parsed Samples.scaledChild)))
    as (entry & Hentry & Hprops & Htranslate & Hother).
  - vm_compute. reflexivity.
  - reflexivity.
  - reflexivity.
  - exists entry. split; [exact Hentry | ].
    split; [apply Hprops; vm_compute; reflexivity | ].
    split; [apply Htranslate; vm_compute; reflexivity | ].
    split; [apply Hprops; vm_compute; reflexivity | ].
    rewrite Hother by discriminate. vm_compute. reflexivity.
Defined.

Lemma sizeSignals_Throw (refs : list SizeRef) (e : Error) :
  sizeSignals refs = Throw e ↔ e = TypeError ∧ SizeNull ∈ refs.
Proof.
  induction refs as [ | [ | s] refs IH]; cbn [sizeSignals].
  - split; [discriminate | ]. intros [_ H]. inversion H.
  - split.
    + intros [= <-]. split; [reflexivity | apply list_elem_of_here].
    + intros [-> _]. reflexivity.
  - destruct (sizeSignals refs) as [signals | e0]; cbn [mbind result_bind].
    + split; [discriminate | ]. intros [He H].
      apply elem_of_cons in H as [H | H]; [discriminate | ].
      assert (Hcontra : Ok signals = Throw e) by (apply IH; auto). discriminate.
    + split.
      * intros [= <-]. destruct (proj1 IH eq_refl) as [-> H].
        split; [reflexivity | apply list_elem_of_further, H].
      * intros [-> H]. apply elem_of_cons in H as [H | H]; [discriminate | ].
        assert (Hthrow : Throw e0 = Throw (A := list (option string)) TypeError)
          by (apply IH; auto).
        injection Hthrow as ->. reflexivity.
Qed.

(** X8: assembling a projection throws a type error exactly when the
    component is live and has a data list while its size is [undefined] or
    holds a [null] reference; this is decided before the data list is
    looked at, so also when the list is empty. *)
Theorem assemble_type_error_iff (n : Node) :
  assembleProjectionForModel n = Throw TypeError ↔
  ∃ c, projection n = Some c ∧ merged c = false ∧ is_Some (data c)
       ∧ (size c = None ∨ ∃ refs, size c = Some refs ∧ SizeNull ∈ refs).
Proof.
  unfold assembleProjectionForModel. split.
  - destruct (projection n) as [c | ]; [ | discriminate].
    destruct (merged c) eqn:Hm; [discriminate | ].
    destruct (data c) as [ds | ] eqn:Hd; [ | discriminate].
    destruct (size c) as [refs | ] eqn:Hs.
    + destruct (sizeSignals refs) as [signals | e] eqn:Hsig; cbn [mbind result_bind].
      * case_bool_decide; discriminate.
      * intros [= ->]. apply sizeSignals_Throw in Hsig as [_ Hnull].
        exists c. repeat split; eauto.
    + intros _. exists c. repeat split; eauto.
  - intros (c & -> & -> & [ds ->] & [-> | (refs & -> & Hnull)]); [reflexivity | ].
    assert (Hsig : sizeSignals refs = Throw TypeError) by (apply sizeSignals_Throw; auto).
    rewrite Hsig. reflexivity.
Qed.

(** ** Name lookup after a promotion *)

Lemma getName_name (n n' : Node) (text : string) :
  name n' = name n → getName n' text = getName n text.
Proof. unfold getName. intros ->. reflexivity. Qed.

Lemma parseUnitProjection_name (n n' : Node) (u : UnitSpec) (c : ProjectionComponent) :
  parseUnitProjection n u = (Some c, n') →
  spread (unitSpecifiedProjection u) !! "name" = None →
  spread (configProjection u) !! "name" = None →
  Split.get c "name" = Some (VStr (getName n "projection")).
Proof.
  intros Hparse Hs Hcfg.
  destruct (hasProjection u) eqn:Hhas;
    [ | unfold parseUnitProjection in Hparse; rewrite Hhas in Hparse; discriminate].
  rewrite (parseUnitProjection_unfold n u Hhas) in Hparse. cbv zeta in Hparse.
  injection Hparse as Hc _.
  assert (Hbag : (spread (replaceExprRef (unitSpecifiedProjection u))
                  ∪ spread (replaceExprRef (configProjection u))) !! "name" = None).
  { rewrite lookup_union, !replaceExprRef_spread_lookup, Hs, Hcfg. reflexivity. }
  match type of Hc with
  | (if ?b then _ else _) = _ => destruct b
  end; subst c; unfold Split.get; cbn; rewrite Hbag; reflexivity.
Qed.

Lemma NameMap_rename_registered (m : gmap string string) (k v new : string) :
  m !! k = Some v → v ≠ "" →
  NameMap.has (NameMap.rename m k new) k = true
  ∧ NameMap.get (NameMap.rename m k new) k = Some (NameMap.Own new).
Proof.
  intros Hk Hv. rewrite (NameMap_rename_own m k v new Hk).
  rewrite (bool_decide_eq_false_2 (v = "") Hv). split.
  - unfold NameMap.has. rewrite lookup_insert_eq.
    rewrite bool_decide_eq_true_2 by eauto. reflexivity.
  - apply NameMap_read_own, lookup_insert_eq.
Qed.

(** X9: when a composite model promotes a shared projection, a unit child
    that has a projection, names no projection name of its own, and whose
    name map holds a non-empty entry for its projection name, finds the
    projection name of the composite when it looks its own up afterwards,
    and assembles no projection entry itself. *)
Theorem promoted_unit_child_resolves_to_composite (ty : CompositeType) (n n0 : Node)
    (children children1 : list Model) (acc : ProjectionComponent) (i : nat)
    (u : UnitSpec) (v : string) :
  parseChildren children = Ok children1 →
  mergableEvery None children1 = (Some acc, true) →
  children !! i = Some (UnitModel n0 u) →
  hasProjection u = true →
  spread (unitSpecifiedProjection u) !! "name" = None →
  spread (configProjection u) !! "name" = None →
  projectionNameMap n0 !! getName n0 "projection" = Some v →
  v ≠ "" →
  ∃ n' children2 c2,
    parseProjection (CompositeModel ty n children) = Ok (CompositeModel ty n' children2)
    ∧ children2 !! i = Some c2
    ∧ projectionName (node c2) = Some (getName n "projection")
    ∧ assembleProjectionForModel (node c2) = Ok [].
Proof.
  intros Hparse Hred Hi Hhas Hs Hcfg Hseed Hv.
  assert (Hne : children ≠ []) by (intros ->; discriminate).
  pose proof (parseChildren_fresh children children1 Hparse) as [Hfresh _].
  pose proof (parseChildren_Ok_inv children children1 Hparse) as Hall.
  destruct (Forall2_lookup_l _ _ _ _ _ Hall Hi) as (c1 & Hi1 & Hc1).
  cbn [parseProjection] in Hc1.
  destruct (parseUnitProjection n0 u) as [comp n1] eqn:Hunit.
  injection Hc1 as <-.
  assert (Hcomp : ∃ p, comp = Some p).
  { unfold parseUnitProjection in Hunit. rewrite Hhas in Hunit. cbv zeta in Hunit.
    destruct (if negb _ then _ else _) as [d n2] in Hunit.
    injection Hunit as <- _. eauto. }
  destruct Hcomp as [p ->].
  pose proof (parseUnitProjection_name n0 n1 u p Hunit Hs Hcfg) as Hname.
  apply parseUnitProjection_node in Hunit as (Hn1 & Hmap1 & _).
  eexists _, _, _. split; [ | split; [ | split]].
  - rewrite parseProjection_composite by exact Hne.
    rewrite Hparse. cbn [mbind result_bind].
    rewrite (mergeChildProjections_promotes n children1 acc Hfresh Hred). reflexivity.
  - rewrite list_lookup_fmap, Hi1. reflexivity.
  - unfold promotedChild. cbn [node projection setProjection withNode].
    rewrite Hname. cbn [toStringU toStringValue].
    unfold projectionName.
    cbn [projection setProjection merged setMerged negb orb projectionNameMap
         renameProjection setProjectionNameMap].
    replace (getName
               (setProjection
                  (renameProjection (setProjection n1 (Some p))
                     (getName n0 "projection") (parseProjectionName n))
                  (Some (setMerged p true))) "projection")
      with (getName n0 "projection")
      by (symmetry; apply getName_name; exact Hn1).
    rewrite Hmap1.
    destruct (NameMap_rename_registered (projectionNameMap n0) (getName n0 "projection")
                v (parseProjectionName n) Hseed Hv) as [-> ->].
    reflexivity.
  - unfold promotedChild. cbn [node projection setProjection withNode]. reflexivity.
Qed.

Lemma promoted_unit_child_resolves_to_composite_witness :
  ∃ n' children2 c2,
    parseProjection (Samples.layer Samples.mergingChildren)
    = Ok (CompositeModel Layer n' children2)
    ∧ children2 !! 2%nat = Some c2
    ∧ projectionName (node c2) = Some (getName (Samples.seededNode "") "projection")
    ∧ assembleProjectionForModel (node c2) = Ok [].
Proof.
  apply (promoted_unit_child_resolves_to_composite Layer (Samples.seededNode "")
           (Samples.seededNode "layer_2") Samples.mergingChildren
           (map Samples.parsed Samples.mergingChildren)
           (Samples.rootComponent (Samples.parsed Samples.shapeChild)) 2
           Samples.pointSpec "layer_2_projection").
  - vm_compute. reflexivity.
  - vm_compute. reflexivity.
  - reflexivity.
  - vm_compute. reflexivity.
  - reflexivity.
  - reflexivity.
  - vm_compute. reflexivity.
  - discriminate.
Defined.

(** ** Assembling after a promotion *)

Lemma assembleChildren_silent (projections : list Bag) (cs : list Model) :
  Forall (λ c, assembleProjections c = Ok []) cs →
  assembleChildren projections cs = Ok projections.
Proof.
  induction 1 as [ | c cs Hc _ IH]; cbn [assembleChildren]; [reflexivity | ].
  rewrite Hc. cbn [mbind result_bind]. rewrite app_nil_r. exact IH.
Qed.

Lemma assembleProjectionForModel_fresh (n : Node) (c : ProjectionComponent) :
  projection n = Some c → freshComponent c →
  (∃ entry, assembleProjectionForModel n = Ok [entry])
  ∨ assembleProjectionForModel n = Throw TypeError.
Proof.
  intros Hc (Hmerged & Hiff & Hne). unfold assembleProjectionForModel.
  rewrite Hc, Hmerged. destruct (data c) as [ds | ] eqn:Hd; [ | left; eauto].
  destruct (size c) as [refs | ] eqn:Hs; [ | right; reflexivity].
  destruct (sizeSignals refs) as [signals | e] eqn:Hsig; cbn [mbind result_bind].
  - left. rewrite bool_decide_eq_false_2; [eauto | ].
    intros Hlen. apply Hne. f_equal. apply (fitSources_nil_iff n).
    destruct (fitSources n ds); [reflexivity | cbn in Hlen; lia].
  - right. apply sizeSignals_Throw in Hsig as [-> _]. reflexivity.
Qed.

(** X10: a layer or concat model whose children are all unit models and
    whose merge reduction succeeds assembles, after parsing, the projection
    of the composite alone: its children contribute nothing, and the result
    is a single entry, or a type error when a size reference is [null]. *)
Theorem merged_units_assemble_one_entry (ty : CompositeType) (n : Node)
    (children children1 : list Model) (acc : ProjectionComponent) :
  ty ≠ Facet →
  (∀ c, c ∈ children → ∃ n0 u, c = UnitModel n0 u) →
  parseChildren children = Ok children1 →
  mergableEvery None children1 = (Some acc, true) →
  ∃ m', parseProjection (CompositeModel ty n children) = Ok m'
        ∧ assembleProjections m' = assembleProjectionForModel (node m')
        ∧ ((∃ entry, assembleProjections m' = Ok [entry])
           ∨ assembleProjections m' = Throw TypeError).
Proof.
  intros Hty Hunits Hparse Hred.
  assert (Hne : children ≠ []).
  { intros ->. cbn in Hparse. injection Hparse as <-. discriminate. }
  pose proof (parseChildren_fresh children children1 Hparse) as [Hfresh _].
  pose proof (parseChildren_Ok_inv children children1 Hparse) as Hall.
  assert (Hunits1 : Forall (λ c, ∃ n0 u, c = UnitModel n0 u) children1).
  { apply Forall_forall. intros c1 Hc1.
    apply list_elem_of_lookup in Hc1 as [i Hi].
    destruct (Forall2_lookup_r _ _ _ _ _ Hall Hi) as (c & Hc & Hpc).
    destruct (Hunits c) as (n0 & u & ->); [apply list_elem_of_lookup; eauto | ].
    cbn [parseProjection] in Hpc.
    destruct (parseUnitProjection n0 u) as [comp n1]. injection Hpc as <-. eauto. }
  assert (Hacc : freshComponent acc).
  { apply mergableEvery_success in Hred as ([? | Hacc] & _); [discriminate | ].
    apply elem_of_childComponents in Hacc as (c & Hc & Hp).
    rewrite Forall_forall in Hfresh. exact (Hfresh c Hc acc Hp). }
  eexists. split.
  - rewrite parseProjection_composite by exact Hne.
    rewrite Hparse. cbn [mbind result_bind].
    rewrite (mergeChildProjections_promotes n children1 acc Hfresh Hred). reflexivity.
  - cbn [node].
    assert (Hall' : assembleProjections
                      (CompositeModel ty (setProjection n (Some (promotedComponent n acc children1)))
                         (map (promotedChild (parseProjectionName n)) children1))
                    = assembleProjectionForModel
                        (setProjection n (Some (promotedComponent n acc children1)))).
    { rewrite assembleProjections_composite by exact Hty.
      destruct (assembleProjectionForModel _) as [own | e]; cbn [mbind result_bind];
        [ | reflexivity].
      apply assembleChildren_silent. apply Forall_map.
      eapply Forall_impl; [exact Hunits1 | ].
      intros c (n0 & u & ->). unfold promotedChild. cbn [node].
      destruct (projection n0) as [p | ] eqn:Hp; cbn [withNode assembleProjections].
      - unfold assembleProjectionForModel. cbn. reflexivity.
      - unfold assembleProjectionForModel. rewrite Hp. reflexivity. }
    split; [exact Hall' | ]. rewrite Hall'.
    apply (assembleProjectionForModel_fresh _ (promotedComponent n acc children1));
      [reflexivity | apply promotedComponent_fresh, Hacc].
Qed.

Lemma merged_units_assemble_one_entry_witness :
  ∃ m', parseProjection (Samples.layer Samples.mergingChildren) = Ok m'
        ∧ assembleProjections m' = assembleProjectionForModel (node m')
        ∧ ((∃ entry, assembleProjections m' = Ok [entry])
           ∨ assembleProjections m' = Throw TypeError).
Proof.
  apply (merged_units_assemble_one_entry Layer (Samples.seededNode "")
           Samples.mergingChildren (map Samples.parsed Samples.mergingChildren)
           (Samples.rootComponent (Samples.parsed Samples.shapeChild))).
  - discriminate.
  - intros c Hc. unfold Samples.mergingChildren in Hc.
    repeat (apply elem_of_cons in Hc as [-> | Hc]; [eexists _, _; reflexivity | ]).
    inversion Hc.
  - vm_compute. reflexivity.
  - vm_compute. reflexivity.
Defined.

(** ** More on name maps *)

Lemma NameMap_rename_cases (m : NameMap.t) (a b : string) :
  NameMap.rename m a b = m
  ∨ (NameMap.rename m a b = <[a := b]> m ∧ NameMap.has m a = true).
Proof.
  destruct (m !! a) as [v | ] eqn:Ha.
  - rewrite (NameMap_rename_own m a v b Ha). case_bool_decide; [auto | ].
    right. split; [reflexivity | ]. unfold NameMap.has. rewrite Ha.
    rewrite bool_decide_eq_true_2 by eauto. reflexivity.
  - destruct (NameMap.inherited a) eqn:Hi.
    + rewrite (NameMap_rename_inherited m a b Ha Hi). unfold NameMap.write.
      destruct (_ && _); [auto | ].
      right. split; [reflexivity | ]. unfold NameMap.has. rewrite Hi. apply orb_true_r.
    + left. apply NameMap_rename_none; assumption.
Qed.

(** X11: [rename] never changes what [has] answers and touches no other
    name; an entry that holds the empty string is never overwritten, so a
    name once renamed to the empty string stays there; a name other than
    [__proto__] set to a non-empty value is renamed, and [set] followed by
    [get] gives the value set.  The name [__proto__] can be neither set nor
    renamed, and [get] gives the prototype object for it; any other name
    of a member every object inherits is registered by [rename] although
    it was never set. *)
Theorem NameMap_rename_keeps_names (m : NameMap.t) (a b c : string) :
  (∀ k, NameMap.has (NameMap.rename m a b) k = NameMap.has m k)
  ∧ (∀ k, k ≠ a → NameMap.get (NameMap.rename m a b) k = NameMap.get m k)
  ∧ (NameMap.get m a = Some (NameMap.Own "") → NameMap.rename m a b = m)
  ∧ NameMap.rename (NameMap.rename m a "") a c = NameMap.rename m a ""
  ∧ (b ≠ "" → a ≠ "__proto__" →
     NameMap.get (NameMap.rename (NameMap.set m a b) a c) a = Some (NameMap.Own c))
  ∧ (a ≠ "__proto__" → NameMap.get (NameMap.set m a b) a = Some (NameMap.Own b))
  ∧ NameMap.has (NameMap.set m a b) a = true
  ∧ (m !! "__proto__" = None →
     NameMap.set m "__proto__" b = m
     ∧ NameMap.rename m "__proto__" b = m
     ∧ NameMap.get m "__proto__" = Some (NameMap.Inherited "__proto__"))
  ∧ (m !! a = None → a ∈ NameMap.OBJECT_PROTOTYPE → a ≠ "__proto__" →
     NameMap.get m a = Some (NameMap.Inherited a)
     ∧ NameMap.rename m a b = <[a := b]> m
     ∧ NameMap.get (NameMap.rename m a b) a = Some (NameMap.Own b)).
Proof.
  split; [ | split; [ | split; [ | split; [ | split; [ | split; [ | split; [ | split]]]]]]].
  - intros k. destruct (NameMap_rename_cases m a b) as [-> | [-> Hhas]]; [reflexivity | ].
    destruct (decide (k = a)) as [-> | Hk].
    + rewrite Hhas. unfold NameMap.has. rewrite lookup_insert_eq.
      rewrite bool_decide_eq_true_2 by eauto. reflexivity.
    + unfold NameMap.has. rewrite lookup_insert_ne by congruence. reflexivity.
  - intros k Hk. destruct (NameMap_rename_cases m a b) as [-> | [-> _]]; [reflexivity | ].
    unfold NameMap.get, NameMap.read. rewrite lookup_insert_ne by congruence. reflexivity.
  - unfold NameMap.get, NameMap.read. intros Hget.
    destruct (m !! a) as [v | ] eqn:Ha.
    + injection Hget as ->. rewrite (NameMap_rename_own m a "" b Ha). reflexivity.
    + destruct (NameMap.inherited a); discriminate.
  - destruct (m !! a) as [v | ] eqn:Ha.
    + rewrite (NameMap_rename_own m a v "" Ha). case_bool_decide as Hv.
      * rewrite (NameMap_rename_own m a v c Ha), bool_decide_eq_true_2 by exact Hv.
        reflexivity.
      * rewrite (NameMap_rename_own (<[a := ""]> m) a "" c) by apply lookup_insert_eq.
        reflexivity.
    + destruct (NameMap.inherited a) eqn:Hi.
      * rewrite (NameMap_rename_inherited m a "" Ha Hi).
        destruct (decide (a = "__proto__")) as [-> | Hne].
        -- rewrite (NameMap_write_proto m "" Ha).
           rewrite (NameMap_rename_inherited m _ c Ha Hi). apply NameMap_write_proto, Ha.
        -- rewrite (NameMap_write_insert m a "") by auto.
           rewrite (NameMap_rename_own (<[a := ""]> m) a "" c) by apply lookup_insert_eq.
           reflexivity.
      * rewrite (NameMap_rename_none m a "" Ha Hi). apply NameMap_rename_none; assumption.
  - intros Hb Ha. unfold NameMap.set. rewrite (NameMap_write_insert m a b) by auto.
    rewrite (NameMap_rename_own (<[a := b]> m) a b c) by apply lookup_insert_eq.
    rewrite (bool_decide_eq_false_2 (b = "") Hb).
    apply NameMap_read_own, lookup_insert_eq.
  - intros Ha. unfold NameMap.set. rewrite (NameMap_write_insert m a b) by auto.
    apply NameMap_read_own, lookup_insert_eq.
  - unfold NameMap.set, NameMap.write, NameMap.has.
    destruct (bool_decide (a = "__proto__")) eqn:Ha.
    + apply bool_decide_eq_true in Ha as ->.
      replace (NameMap.inherited "__proto__") with true by (vm_compute; reflexivity).
      apply orb_true_r.
    + cbn [andb]. rewrite lookup_insert_eq.
      rewrite bool_decide_eq_true_2 by eauto. reflexivity.
  - intros Hp.
    assert (Hi : NameMap.inherited "__proto__" = true) by (vm_compute; reflexivity).
    split; [apply NameMap_write_proto, Hp | ]. split.
    + rewrite (NameMap_rename_inherited m _ b Hp Hi). apply NameMap_write_proto, Hp.
    + apply NameMap_read_inherited; assumption.
  - intros Ha Hp Hne. apply NameMap_inherited_true in Hp.
    assert (Hr : NameMap.rename m a b = <[a := b]> m).
    { rewrite (NameMap_rename_inherited m a b Ha Hp). apply NameMap_write_insert. auto. }
    split; [apply NameMap_read_inherited; assumption | ].
    split; [exact Hr | ]. rewrite Hr. apply NameMap_read_own, lookup_insert_eq.
Qed.

Lemma NameMap_rename_keeps_names_witness :
  let m := NameMap.set NameMap.empty "child_projection" "child_projection" in
  NameMap.rename (NameMap.rename m "child_projection" "") "child_projection" "projection"
  = NameMap.rename m "child_projection" ""
  ∧ NameMap.get (NameMap.rename m "child_projection" "projection") "child_projection"
    = Some (NameMap.Own "projection")
  ∧ NameMap.get (NameMap.rename NameMap.empty "toString" "projection") "toString"
    = Some (NameMap.Own "projection").
Proof.
  intros m.
  destruct (NameMap_rename_keeps_names NameMap.empty "child_projection"
              "child_projection" "projection")
    as (_ & _ & _ & _ & Hset & _).
  destruct (NameMap_rename_keeps_names m "child_projection" "" "projection")
    as (_ & _ & _ & Hstuck & _).
  destruct (NameMap_rename_keeps_names NameMap.empty "toString" "projection" "")
    as (_ & _ & _ & _ & _ & _ & _ & _ & Hinh).
  split; [exact Hstuck | ].
  split; [apply Hset; discriminate | ].
  apply Hinh; [apply lookup_empty | | discriminate].
  apply NameMap_inherited_true. vm_compute. reflexivity.
Defined.

(** ** GeoJSON nodes and the fit data *)

Lemma coordinate_truthy (u : UnitSpec) (channel : string) :
  (∀ ch f t, encoding u !! ch = Some (FieldDef f t) → f ≠ "") →
  GeoPoint.truthyField (GeoPoint.coordinate u channel)
  = defined (getFieldOrDatumDef (encoding u !! channel)).
Proof.
  intros Hfields. unfold GeoPoint.coordinate, getFieldOrDatumDef, isFieldOrDatumDef.
  destruct (encoding u !! channel) as [[f t | d | v] | ] eqn:Hch; cbn; try reflexivity.
  rewrite bool_decide_eq_false_2; [reflexivity | ]. exact (Hfields channel f t Hch).
Qed.

(** X12: for a unit model whose field names are not empty and whose
    component is fit-enabled (or absent), the signals of the GeoJSON nodes
    that [GeoJSONNode.parseAll] chains on the data flow are, in order,
    exactly the signals [gatherFitData] lists; when no node is built the
    fit data is the name of the main data source. *)
Theorem geojson_signals_are_the_fit_data (parent : DataFlowNode) (n : Node) (u : UnitSpec) :
  (∀ ch f t, encoding u !! ch = Some (FieldDef f t) → f ≠ "") →
  match projection n with Some c => isFit c = true | None => True end →
  let d := GeoJSON.parseAll (Upstream parent) n u in
  (d = Upstream parent ∧ (gatherFitData n u).1 = [DataName (getName n "main")])
  ∨ (d ≠ Upstream parent
     ∧ (gatherFitData n u).1
       = map (λ s, DataSignal (default "" s)) (GeoJSON.signals d)
     ∧ Forall (λ s, is_Some s) (GeoJSON.signals d)).
Proof.
  intros Hfields Hfit d. subst d.
  unfold GeoJSON.parseAll, gatherFitData.
  assert (Hguard : match projection n with
                   | Some c => negb (isFit c)
                   | None => false
                   end = false).
  { destruct (projection n) as [c | ]; [rewrite Hfit | ]; reflexivity. }
  rewrite Hguard. cbv beta iota zeta delta [foldl fst snd].
  rewrite (coordinate_truthy u LONGITUDE Hfields), (coordinate_truthy u LATITUDE Hfields).
  unfold channelHasField, typedFieldDefType, isFieldDef.
  destruct (defined (getFieldOrDatumDef (encoding u !! LONGITUDE))
            || defined (getFieldOrDatumDef (encoding u !! LATITUDE)));
    cbv beta iota zeta delta [fst snd];
    rewrite (coordinate_truthy u LONGITUDE2 Hfields),
      (coordinate_truthy u LATITUDE2 Hfields);
    destruct (defined (getFieldOrDatumDef (encoding u !! LONGITUDE2))
              || defined (getFieldOrDatumDef (encoding u !! LATITUDE2)));
    cbv beta iota zeta;
    destruct (encoding u !! SHAPE) as [[f t | dv | v] | ]; cbn [andb];
    try (destruct (decide (t = GEOJSON)) as [-> | Ht];
         [rewrite (bool_decide_eq_true_2 (GEOJSON = GEOJSON) eq_refl),
            (bool_decide_eq_true_2 (Some GEOJSON = Some GEOJSON) eq_refl)
         | rewrite (bool_decide_eq_false_2 (t = GEOJSON)) by exact Ht;
           rewrite (bool_decide_eq_false_2 (Some t = Some GEOJSON)) by congruence]);
    cbn [length app bool_decide];
    first [ left; split; reflexivity
          | right; split; [discriminate | split; [reflexivity | repeat constructor; eauto]] ].
Qed.

Lemma geojson_signals_are_the_fit_data_witness :
  let n := node (Samples.parsed (UnitModel (Samples.seededNode "layer_0") Samples.fullGeoSpec)) in
  let d := GeoJSON.parseAll (Upstream (OtherNode "source")) n Samples.fullGeoSpec in
  GeoJSON.signals d
  = [Some "layer_0_geojson_0"; Some "layer_0_geojson_1"; Some "layer_0_geojson_2"]
  ∧ ((d = Upstream (OtherNode "source")
      ∧ (gatherFitData n Samples.fullGeoSpec).1 = [DataName (getName n "main")])
     ∨ (d ≠ Upstream (OtherNode "source")
        ∧ (gatherFitData n Samples.fullGeoSpec).1
          = map (λ s, DataSignal (default "" s)) (GeoJSON.signals d)
        ∧ Forall (λ s, is_Some s) (GeoJSON.signals d))).
Proof.
  intros n d. split; [vm_compute; reflexivity | ].
  apply (geojson_signals_are_the_fit_data (OtherNode "source") n Samples.fullGeoSpec).
  - intros ch f t H ->. unfold Samples.fullGeoSpec in H. cbn [encoding] in H.
    repeat (apply lookup_insert_Some in H as [[_ H] | [_ H]]; [discriminate | ]).
    apply lookup_singleton_Some in H as [_ H]. discriminate.
  - vm_compute. reflexivity.
Defined.

(** X13: when the shape channel of a unit model holds a geojson field, the
    last node [GeoJSONNode.parseAll] builds is the node of that field; it
    assembles to the filter that keeps the rows with a valid geometry
    followed by the [geojson] transform of the field, and depends on that
    field alone; the nodes built before it, for the coordinate pairs,
    assemble to a [geojson] transform without any filter. *)
Theorem geojson_shape_node_filters (parent : DataFlowNode) (n : Node) (u : UnitSpec)
    (field : string) :
  match projection n with Some c => isFit c = true | None => True end →
  encoding u !! SHAPE = Some (FieldDef field GEOJSON) →
  field ≠ "" →
  ∃ p signal,
    GeoJSON.parseAll (Upstream parent) n u
    = GeoJSONNode (Some p) None (Some field) (Some signal)
    ∧ GeoJSON.assemble (GeoJSON.parseAll (Upstream parent) n u)
      = [VgFilter ("isValid(datum[" +:+ GeoJSON.doubleQuote +:+ field
                   +:+ GeoJSON.doubleQuote +:+ "])");
         VgGeoJSON None (Some field) (Some signal)]
    ∧ GeoJSON.dependentFields (GeoJSON.parseAll (Upstream parent) n u) = {[ field ]}
    ∧ Forall (λ x, ∃ fields s, GeoJSON.assemble x = [VgGeoJSON (Some fields) None (Some s)])
        (GeoJSON.nodes p).
Proof.
  intros Hfit Hshape Hfield.
  unfold GeoJSON.parseAll.
  assert (Hguard : match projection n with
                   | Some c => negb (isFit c)
                   | None => false
                   end = false).
  { destruct (projection n) as [c | ]; [rewrite Hfit | ]; reflexivity. }
  rewrite Hguard, Hshape. cbv beta iota zeta delta [foldl fst snd].
  rewrite (bool_decide_eq_true_2 (GEOJSON = GEOJSON) eq_refl).
  assert (Hassemble : ∀ p s,
            GeoJSON.assemble (GeoJSONNode (Some p) None (Some field) (Some s))
            = [VgFilter ("isValid(datum[" +:+ GeoJSON.doubleQuote +:+ field
                         +:+ GeoJSON.doubleQuote +:+ "])");
               VgGeoJSON None (Some field) (Some s)]
            ∧ GeoJSON.dependentFields (GeoJSONNode (Some p) None (Some field) (Some s))
              = {[ field ]}).
  { intros p s. unfold GeoJSON.assemble, GeoJSON.dependentFields, GeoJSON.truthyString.
    rewrite (bool_decide_eq_false_2 (field = "") Hfield). split; [reflexivity | ].
    cbn. apply (right_id_L ∅ (∪)). }
  destruct (GeoPoint.truthyField (GeoPoint.coordinate u LONGITUDE)
            || GeoPoint.truthyField (GeoPoint.coordinate u LATITUDE));
    cbv beta iota zeta delta [fst snd];
    destruct (GeoPoint.truthyField (GeoPoint.coordinate u LONGITUDE2)
              || GeoPoint.truthyField (GeoPoint.coordinate u LATITUDE2));
    cbv beta iota zeta;
    eexists _, _; (split; [reflexivity | ]);
    (split; [apply Hassemble | ]); (split; [apply Hassemble | ]);
    cbn [GeoJSON.nodes]; repeat constructor; eexists _, _; reflexivity.
Qed.

Lemma geojson_shape_node_filters_witness :
  let n := node (Samples.parsed (UnitModel (Samples.seededNode "layer_0") Samples.fullGeoSpec)) in
  ∃ p signal,
    GeoJSON.parseAll (Upstream (OtherNode "source")) n Samples.fullGeoSpec
    = GeoJSONNode (Some p) None (Some "geo") (Some signal)
    ∧ GeoJSON.assemble (GeoJSON.parseAll (Upstream (OtherNode "source")) n Samples.fullGeoSpec)
      = [VgFilter ("isValid(datum[" +:+ GeoJSON.doubleQuote +:+ "geo"
                   +:+ GeoJSON.doubleQuote +:+ "])");
         VgGeoJSON None (Some "geo") (Some signal)]
    ∧ GeoJSON.dependentFields
        (GeoJSON.parseAll (Upstream (OtherNode "source")) n Samples.fullGeoSpec) = {[ "geo" ]}
    ∧ Forall (λ x, ∃ fields s, GeoJSON.assemble x = [VgGeoJSON (Some fields) None (Some s)])
        (GeoJSON.nodes p).
Proof.
  intros n.
  apply (geojson_shape_node_filters (OtherNode "source") n Samples.fullGeoSpec "geo").
  - vm_compute. reflexivity.
  - vm_compute. reflexivity.
  - discriminate.
Defined.

(** ** Channels *)

Lemma getMainRangeChannel_other (c : string) :
  c ∉ Channel.SECONDARY_RANGE_CHANNEL → Channel.getMainRangeChannel c = c.
Proof.
  intros H. unfold Channel.getMainRangeChannel.
  rewrite (bool_decide_eq_false_2 (c = Channel.X2)),
    (bool_decide_eq_false_2 (c = Channel.Y2)),
    (bool_decide_eq_false_2 (c = LATITUDE2)),
    (bool_decide_eq_false_2 (c = LONGITUDE2)),
    (bool_decide_eq_false_2 (c = Channel.THETA2)),
    (bool_decide_eq_false_2 (c = Channel.RADIUS2));
    [reflexivity | ..];
    intros ->; apply H; unfold Channel.SECONDARY_RANGE_CHANNEL; set_solver.
Qed.

Lemma getSecondaryRangeChannel_Some (c s : string) :
  Channel.getSecondaryRangeChannel c = Some s →
  (c, s) ∈ [(Channel.X, Channel.X2); (Channel.Y, Channel.Y2); (LATITUDE, LATITUDE2);
            (LONGITUDE, LONGITUDE2); (Channel.THETA, Channel.THETA2);
            (Channel.RADIUS, Channel.RADIUS2)].
Proof.
  unfold Channel.getSecondaryRangeChannel.
  repeat (case_bool_decide as H; [intros [= <-]; subst c; set_solver | clear H]).
  discriminate.
Qed.

(** X14: the main and the secondary range channel are inverse to each
    other: the secondary channel of a channel has that channel as its main
    channel, and a secondary range channel is the secondary channel of its
    main channel; [getMainRangeChannel] is idempotent, and
    [isSecondaryRangeChannel] holds of exactly the channels of
    [SECONDARY_RANGE_CHANNEL]. *)
Theorem range_channel_round_trip (c : string) :
  (∀ s, Channel.getSecondaryRangeChannel c = Some s →
        Channel.getMainRangeChannel s = c ∧ Channel.isSecondaryRangeChannel s = true)
  ∧ (Channel.isSecondaryRangeChannel c = true →
     Channel.getSecondaryRangeChannel (Channel.getMainRangeChannel c) = Some c)
  ∧ Channel.getMainRangeChannel (Channel.getMainRangeChannel c)
    = Channel.getMainRangeChannel c
  ∧ (Channel.isSecondaryRangeChannel c = true ↔ c ∈ Channel.SECONDARY_RANGE_CHANNEL).
Proof.
  assert (Hiff : Channel.isSecondaryRangeChannel c = true ↔ c ∈ Channel.SECONDARY_RANGE_CHANNEL).
  { destruct (decide (c ∈ Channel.SECONDARY_RANGE_CHANNEL)) as [Hin | Hout].
    - split; [intros _; exact Hin | intros _].
      unfold Channel.SECONDARY_RANGE_CHANNEL in Hin.
      repeat (apply elem_of_cons in Hin as [-> | Hin]; [reflexivity | ]).
      inversion Hin.
    - split; [ | intros ?; contradiction].
      unfold Channel.isSecondaryRangeChannel. cbv zeta.
      rewrite (getMainRangeChannel_other c Hout).
      rewrite bool_decide_eq_true_2 by reflexivity. discriminate. }
  split; [ | split; [ | split; [ | exact Hiff]]].
  - intros s Hs. apply getSecondaryRangeChannel_Some in Hs.
    repeat (apply elem_of_cons in Hs as [[= -> ->] | Hs]; [split; reflexivity | ]).
    inversion Hs.
  - intros Hsec. apply Hiff in Hsec. unfold Channel.SECONDARY_RANGE_CHANNEL in Hsec.
    repeat (apply elem_of_cons in Hsec as [-> | Hsec]; [reflexivity | ]).
    inversion Hsec.
  - destruct (decide (c ∈ Channel.SECONDARY_RANGE_CHANNEL)) as [Hin | Hout].
    + unfold Channel.SECONDARY_RANGE_CHANNEL in Hin.
      repeat (apply elem_of_cons in Hin as [-> | Hin]; [reflexivity | ]).
      inversion Hin.
    + rewrite !(getMainRangeChannel_other c Hout). reflexivity.
Qed.

Lemma getPositionChannelFromLatLong_Some (c p : string) :
  Channel.getPositionChannelFromLatLong c = Some p ↔
  (c, p) ∈ [(LATITUDE, Channel.Y); (LATITUDE2, Channel.Y2);
            (LONGITUDE, Channel.X); (LONGITUDE2, Channel.X2)].
Proof.
  split.
  - unfold Channel.getPositionChannelFromLatLong.
    repeat (case_bool_decide as H; [intros [= <-]; subst c; set_solver | clear H]).
    discriminate.
  - intros H.
    repeat (apply elem_of_cons in H as [[= -> ->] | H]; [reflexivity | ]).
    inversion H.
Qed.

(** X15: [getPositionChannelFromLatLong] is defined on exactly the geo
    position channels; it sends the longitudes to the horizontal and the
    latitudes to the vertical position channels, so that the size channel
    of the result is the width for a longitude and the height for a
    latitude, and it commutes with [getMainRangeChannel]: a secondary geo
    channel goes to the secondary position channel of the same axis. *)
Theorem geo_position_channels (c : string) :
  (Channel.isGeoPositionChannel c = true ↔
   is_Some (Channel.getPositionChannelFromLatLong c))
  ∧ (∀ p, Channel.getPositionChannelFromLatLong c = Some p →
       Channel.getPositionChannelFromLatLong (Channel.getMainRangeChannel c)
       = Some (Channel.getMainRangeChannel p)
       ∧ Channel.isSecondaryRangeChannel p = Channel.isSecondaryRangeChannel c
       ∧ Channel.getSizeChannel p
         = Some (if bool_decide (Channel.getMainRangeChannel c = LONGITUDE)
                 then "width" else "height")).
Proof.
  split.
  - unfold Channel.isGeoPositionChannel. rewrite bool_decide_eq_true. split.
    + intros H. unfold GEOPOSITION_CHANNELS in H.
      repeat (apply elem_of_cons in H as [-> | H]; [eexists; reflexivity | ]).
      inversion H.
    + intros [p Hp]. apply getPositionChannelFromLatLong_Some in Hp.
      repeat (apply elem_of_cons in Hp as [[= -> ->] | Hp];
              [unfold GEOPOSITION_CHANNELS; set_solver | ]).
      inversion Hp.
  - intros p Hp. apply getPositionChannelFromLatLong_Some in Hp.
    repeat (apply elem_of_cons in Hp as [[= -> ->] | Hp];
            [split; [reflexivity | split; reflexivity] | ]).
    inversion Hp.
Qed.

Lemma getOffsetScaleChannel_Some (c o : string) :
  Channel.getOffsetScaleChannel c = Some o ↔
  (c, o) ∈ [(Channel.X, Channel.XOFFSET); (Channel.Y, Channel.YOFFSET)].
Proof.
  split.
  - unfold Channel.getOffsetScaleChannel.
    repeat (case_bool_decide as H; [intros [= <-]; subst c; set_solver | clear H]).
    discriminate.
  - intros H.
    repeat (apply elem_of_cons in H as [[= -> ->] | H]; [reflexivity | ]).
    inversion H.
Qed.

Lemma getMainChannelFromOffsetChannel_Some (c o : string) :
  Channel.getMainChannelFromOffsetChannel o = Some c ↔
  (c, o) ∈ [(Channel.X, Channel.XOFFSET); (Channel.Y, Channel.YOFFSET)].
Proof.
  split.
  - unfold Channel.getMainChannelFromOffsetChannel.
    repeat (case_bool_decide as H; [intros [= <-]; subst o; set_solver | clear H]).
    discriminate.
  - intros H.
    repeat (apply elem_of_cons in H as [[= -> ->] | H]; [reflexivity | ]).
    inversion H.
Qed.

(** X16: the scaled offset channel and the main position channel are
    inverse to each other; a channel has a scaled offset channel exactly
    when it is [x] or [y], and then this is also its offset channel; and
    the size channel of [x] and [y] leads back to the channel through
    [getPositionScaleChannel]. *)
Theorem offset_channel_round_trip (c o : string) :
  (Channel.getOffsetScaleChannel c = Some o ↔
   Channel.getMainChannelFromOffsetChannel o = Some c)
  ∧ (Channel.getOffsetScaleChannel c = Some o →
     Channel.getOffsetChannel c = Some o
     ∧ Channel.isXorY c = true ∧ Channel.isXorYOffset o = true)
  ∧ (Channel.isXorY c = true ↔ is_Some (Channel.getOffsetScaleChannel c))
  ∧ (Channel.isXorY c = true →
     ∃ s, Channel.getSizeChannel c = Some s ∧ Channel.getPositionScaleChannel s = c).
Proof.
  split; [ | split; [ | split]].
  - rewrite getOffsetScaleChannel_Some, getMainChannelFromOffsetChannel_Some. reflexivity.
  - intros H. apply getOffsetScaleChannel_Some in H.
    repeat (apply elem_of_cons in H as [[= -> ->] | H];
            [split; [reflexivity | split; reflexivity] | ]).
    inversion H.
  - unfold Channel.isXorY. rewrite bool_decide_eq_true. split.
    + intros H. repeat (apply elem_of_cons in H as [-> | H]; [eexists; reflexivity | ]).
      inversion H.
    + intros [x Hx]. apply getOffsetScaleChannel_Some in Hx.
      repeat (apply elem_of_cons in Hx as [[= -> ->] | Hx]; [set_solver | ]).
      inversion Hx.
  - unfold Channel.isXorY. rewrite bool_decide_eq_true. intros H.
    repeat (apply elem_of_cons in H as [-> | H];
            [eexists; split; reflexivity | ]).
    inversion H.
Qed.

(** ** Data flow nodes and the projection *)

(** X17: a unit model with an explicit, non-null [scale] or [translate]
    gets no GeoJSON node at all: after its projection has been parsed,
    [GeoJSONNode.parseAll] hands its parent back, whatever geographic
    fields the encoding holds. *)
Theorem fixed_projection_builds_no_geojson_node (parent : GeoJSONFlow) (n : Node)
    (u : UnitSpec) (p : Bag) :
  hasProjection u = true →
  unitSpecifiedProjection u = Some p →
  (∃ v, p !! "scale" = Some v ∧ v ≠ VNull) ∨ (∃ v, p !! "translate" = Some v ∧ v ≠ VNull) →
  ∃ n', parseProjection (UnitModel n u) = Ok (UnitModel n' u)
        ∧ GeoJSON.parseAll parent n' u = parent.
Proof.
  intros Hhas Hspec Hgiven.
  pose proof (parseUnitProjection_unfold n u Hhas) as Hparse. cbv zeta in Hparse.
  assert (Hfit : notNullish (spread (unitSpecifiedProjection u) !! "scale")
                 || notNullish (spread (unitSpecifiedProjection u) !! "translate") = true).
  { rewrite Hspec. cbn [spread default]. apply orb_true_iff.
    destruct Hgiven as [H | H]; [left | right]; apply notNullish_true, H. }
  rewrite Hfit in Hparse. cbn [negb] in Hparse.
  cbn [parseProjection]. rewrite Hparse.
  eexists. split; [reflexivity | ].
  unfold GeoJSON.parseAll. cbn [projection setProjection].
  match goal with
  | |- context [if negb (truthyU ?t) then _ else _] => destruct (negb (truthyU t))
  end; reflexivity.
Qed.

Lemma fixed_projection_builds_no_geojson_node_witness :
  ∃ n', parseProjection Samples.scaledChild = Ok (UnitModel n' Samples.scaledSpec)
        ∧ GeoJSON.parseAll (Upstream (OtherNode "source")) n' Samples.scaledSpec
          = Upstream (OtherNode "source").
Proof.
  apply (fixed_projection_builds_no_geojson_node (Upstream (OtherNode "source"))
           (Samples.seededNode "layer_1") Samples.scaledSpec {[ "scale" := VNum 100 ]}).
  - vm_compute. reflexivity.
  - reflexivity.
  - left. exists (VNum 100). split; [vm_compute; reflexivity | discriminate].
Defined.

Lemma coordinate_FieldName (u : UnitSpec) (channel x : string) :
  GeoPoint.coordinate u channel = Some (FieldName x) ↔
  ∃ t, encoding u !! channel = Some (FieldDef x t).
Proof.
  unfold GeoPoint.coordinate, getFieldOrDatumDef, isFieldOrDatumDef.
  destruct (encoding u !! channel) as [[f t | d | v] | ]; cbn; split;
    try discriminate; try (intros [? ?]; discriminate).
  - intros [= ->]. eauto.
  - intros [t' [= -> _]]. reflexivity.
Qed.

Lemma coordinate_truthy_def (u : UnitSpec) (channel : string) :
  GeoPoint.truthyField (GeoPoint.coordinate u channel) = true →
  isFieldOrDatumDef (encoding u !! channel) = true.
Proof.
  unfold GeoPoint.coordinate, getFieldOrDatumDef, isFieldOrDatumDef.
  destruct (encoding u !! channel) as [[f t | d | v] | ]; cbn; auto.
Qed.

(** X18: a geographic point node is built only for a unit model that has a
    projection according to [hasProjection] and whose projection name
    resolves to a non-empty name; every node built depends only on field
    names that an encoding channel for a geo position holds, and a clone
    of a node assembles to the same descriptor. *)
Theorem geopoint_nodes_need_geo_fields (parent : DataFlowNode) (n : Node) (u : UnitSpec) :
  GeoPoint.parseAll parent n u ≠ parent →
  hasProjection u = true
  ∧ (∃ p, projectionName n = Some p ∧ p ≠ "")
  ∧ (∀ x, x ∈ GeoPointNodes.dependentFields (GeoPoint.parseAll parent n u) →
          ∃ channel t, channel ∈ GEOPOSITION_CHANNELS
                       ∧ encoding u !! channel = Some (FieldDef x t))
  ∧ GeoPoint.assemble (GeoPointNodes.clone (GeoPoint.parseAll parent n u))
    = GeoPoint.assemble (GeoPoint.parseAll parent n u).
Proof.
  intros Hnew. unfold GeoPoint.parseAll in *.
  destruct (projectionName n) as [p | ]; [ | contradiction].
  case_bool_decide as Hp; [contradiction | ].
  cbv beta iota zeta delta [foldl fst snd] in *.
  assert (Hdeps : ∀ par ch1 ch2 a x,
            ch1 ∈ GEOPOSITION_CHANNELS → ch2 ∈ GEOPOSITION_CHANNELS →
            x ∈ GeoPointNodes.dependentFields
                  (GeoPointNode par p (GeoPoint.coordinate u ch1, GeoPoint.coordinate u ch2) a) →
            ∃ channel t, channel ∈ GEOPOSITION_CHANNELS
                         ∧ encoding u !! channel = Some (FieldDef x t)).
  { intros par ch1 ch2 a x H1 H2. cbn [GeoPointNodes.dependentFields].
    rewrite elem_of_list_to_set, list_elem_of_omap.
    intros (f & Hf & Hx). destruct f as [[y | e] | ]; try discriminate.
    injection Hx as ->.
    apply elem_of_cons in Hf as [Hf | Hf].
    - symmetry in Hf. apply coordinate_FieldName in Hf as [t Ht]. eauto.
    - apply list_elem_of_singleton in Hf. symmetry in Hf.
      apply coordinate_FieldName in Hf as [t Ht]. eauto. }
  assert (Hgeo : ∀ ch, ch ∈ GEOPOSITION_CHANNELS →
            GeoPoint.truthyField (GeoPoint.coordinate u ch) = true →
            hasProjection u = true).
  { intros ch Hch Ht. apply coordinate_truthy_def in Ht.
    unfold hasProjection. cbv zeta. apply orb_true_iff. right.
    apply existsb_exists. exists ch. split; [apply list_elem_of_In, Hch | exact Ht]. }
  assert (Hin : LONGITUDE ∈ GEOPOSITION_CHANNELS ∧ LATITUDE ∈ GEOPOSITION_CHANNELS
                ∧ LONGITUDE2 ∈ GEOPOSITION_CHANNELS ∧ LATITUDE2 ∈ GEOPOSITION_CHANNELS)
    by (unfold GEOPOSITION_CHANNELS; set_solver).
  destruct Hin as (Hlon & Hlat & Hlon2 & Hlat2).
  destruct (GeoPoint.truthyField (GeoPoint.coordinate u LONGITUDE)) eqn:H1;
    destruct (GeoPoint.truthyField (GeoPoint.coordinate u LATITUDE)) eqn:H2;
    destruct (GeoPoint.truthyField (GeoPoint.coordinate u LONGITUDE2)) eqn:H3;
    destruct (GeoPoint.truthyField (GeoPoint.coordinate u LATITUDE2)) eqn:H4;
    cbn [orb] in *; try contradiction;
    (split; [eauto | ]); (split; [eauto | ]); (split; [ | reflexivity]);
    intros x; apply Hdeps; assumption.
Qed.

Lemma geopoint_nodes_need_geo_fields_witness :
  let n := node (Samples.parsed Samples.pointChild) in
  hasProjection Samples.pointSpec = true
  ∧ GeoPointNodes.dependentFields (GeoPoint.parseAll (OtherNode "source") n Samples.pointSpec)
    = {[ "lon"; "lat" ]}
  ∧ ∀ x, x ∈ GeoPointNodes.dependentFields
               (GeoPoint.parseAll (OtherNode "source") n Samples.pointSpec) →
         ∃ channel t, channel ∈ GEOPOSITION_CHANNELS
                      ∧ encoding Samples.pointSpec !! channel = Some (FieldDef x t).
Proof.
  intros n.
  destruct (geopoint_nodes_need_geo_fields (OtherNode "source") n Samples.pointSpec)
    as (Hhas & _ & Hdeps & _).
  - vm_compute. discriminate.
  - split; [exact Hhas | ]. split; [ | exact Hdeps].
    vm_compute. reflexivity.
Defined.

(** ** What parsing leaves alone *)

Lemma NameMap_has_rename (m : gmap string string) (a b k : string) :
  NameMap.has (NameMap.rename m a b) k = NameMap.has m k.
Proof.
  destruct (NameMap_rename_cases m a b) as [-> | [-> Hhas]]; [reflexivity | ].
  destruct (decide (k = a)) as [-> | Hk].
  - rewrite Hhas. unfold NameMap.has. rewrite lookup_insert_eq.
    rewrite bool_decide_eq_true_2 by eauto. reflexivity.
  - unfold NameMap.has. rewrite lookup_insert_ne by congruence. reflexivity.
Qed.

Lemma keepsNames_refl (n : Node) (p : option ProjectionComponent) :
  keepsNames n (setProjection n p).
Proof. repeat split; reflexivity || (intros k; reflexivity) || (intros k; cbn; lia). Qed.

Lemma parseUnitProjection_keepsNames (n n' : Node) (u : UnitSpec)
    (c : option ProjectionComponent) :
  parseUnitProjection n u = (c, n') → keepsNames n (setProjection n' c).
Proof.
  intros Hparse.
  assert (Hcounts : ∀ k, (default 0 (outputNodeRefCounts n !! k)
                          ≤ default 0 (outputNodeRefCounts n' !! k))%nat).
  { unfold parseUnitProjection in Hparse.
    destruct (hasProjection u); [ | injection Hparse as _ <-; intros k; lia].
    cbv zeta in Hparse.
    destruct (negb _) in Hparse; [ | injection Hparse as _ <-; intros k; lia].
    unfold gatherFitData in Hparse. cbv zeta in Hparse.
    destruct (bool_decide _) in Hparse; [ | injection Hparse as _ <-; intros k; lia].
    cbn in Hparse. injection Hparse as _ <-. intros k. cbn.
    destruct (decide (k = getName n "main")) as [-> | Hk].
    - rewrite lookup_insert_eq. cbn. lia.
    - rewrite lookup_insert_ne by congruence. lia. }
  apply parseUnitProjection_node in Hparse as (Hname & Hmap & Hsig & Hout).
  split; [exact Hname | ]. split; [exact Hsig | ]. split; [exact Hout | ].
  split; [ | exact Hcounts]. intros k. cbn. rewrite Hmap. reflexivity.
Qed.

Lemma treeRel_promotedChild (name : string) (c c1 : Model) :
  treeRel keepsNames c c1 → treeRel keepsNames c (promotedChild name c1).
Proof.
  intros H. unfold promotedChild.
  destruct (projection (node c1)) as [p | ] eqn:Hp; [ | exact H].
  assert (Hroot : ∀ n n1, keepsNames n n1 →
            keepsNames n (setProjection
                            (renameProjection n1 (toStringU (Split.get p "name")) name)
                            (Some (setMerged p true)))).
  { intros n n1 (Hname & Hsig & Hout & Hhas & Hcounts).
    split; [exact Hname | ]. split; [exact Hsig | ]. split; [exact Hout | ].
    split; [ | exact Hcounts]. intros k. cbn. rewrite NameMap_has_rename. apply Hhas. }
  inversion H; subst; cbn [node withNode]; constructor; auto.
Qed.

(** X19: parsing the projections of a tree changes, besides the projection
    components, nothing but the values of projection names that are
    already registered and the reference counts of data sources, which only
    grow: everywhere in the tree the names, the signal name maps, the
    output nodes and the set of registered projection names stay as they
    were, and the tree keeps its shape. *)
Theorem parseProjection_keeps_names (m m' : Model) :
  parseProjection m = Ok m' → treeRel keepsNames m m'.
Proof.
  revert m'. induction m as [n u | ty n children IH] using Model_nested_ind; intros m'.
  - cbn [parseProjection].
    destruct (parseUnitProjection n u) as [comp n'] eqn:Hparse.
    intros [= <-]. constructor. apply (parseUnitProjection_keepsNames n n' u comp Hparse).
  - destruct children as [ | c0 cs0].
    { intros [= <-]. constructor; [apply keepsNames_refl | constructor]. }
    set (children := c0 :: cs0) in *.
    rewrite parseProjection_composite by discriminate.
    destruct (parseChildren children) as [children1 | e] eqn:Hparse; [ | discriminate].
    cbn [mbind result_bind].
    assert (Hrel : Forall2 (treeRel keepsNames) children children1).
    { pose proof (parseChildren_Ok_inv _ _ Hparse) as Hall. clearbody children.
      clear Hparse. induction Hall as [ | c c1 cs cs1 Hc Hcs IHcs]; constructor.
      - inversion IH as [ | ? ? Hhead Htail]; subst. apply Hhead, Hc.
      - apply IHcs. inversion IH; subst. assumption. }
    pose proof (parseChildren_fresh _ _ Hparse) as [Hfresh _].
    destruct (mergableEvery None children1) as [acc ok] eqn:Hred.
    destruct ok; [destruct acc as [acc | ] | ].
    + rewrite (mergeChildProjections_promotes n children1 acc Hfresh Hred).
      cbn [mbind result_bind]. intros [= <-].
      constructor; [apply keepsNames_refl | ].
      apply Forall2_fmap_r. eapply Forall2_impl; [exact Hrel | ].
      intros c c1 Hc. apply treeRel_promotedChild, Hc.
    + unfold mergeChildProjections. rewrite Hred. cbn [mbind result_bind].
      intros [= <-]. constructor; [apply keepsNames_refl | exact Hrel].
    + rewrite mergeChildProjections_aborts by (rewrite Hred; reflexivity).
      cbn [mbind result_bind]. intros [= <-].
      constructor; [apply keepsNames_refl | exact Hrel].
Qed.

Lemma parseProjection_keeps_names_witness :
  treeRel keepsNames (Samples.layer Samples.mergingChildren)
    (Samples.parsed (Samples.layer Samples.mergingChildren)).
Proof.
  apply parseProjection_keeps_names. vm_compute. reflexivity.
Defined.

(** X20: a live projection component is not enough for a name lookup: as
    long as the projection name of a unit model is not registered in its
    name map, and parsing registers none, [projectionName()] is
    [undefined] after parsing and [GeoPointNode.parseAll] builds no node,
    whatever the encoding holds. *)
Theorem unregistered_projection_name_builds_no_geopoint (parent : DataFlowNode)
    (n n' : Node) (u : UnitSpec) :
  NameMap.has (projectionNameMap n) (getName n "projection") = false →
  parseProjection (UnitModel n u) = Ok (UnitModel n' u) →
  projectionName n' = None ∧ GeoPoint.parseAll parent n' u = parent.
Proof.
  intros Hhas Hparse. cbn [parseProjection] in Hparse.
  destruct (parseUnitProjection n u) as [comp n1] eqn:Hunit.
  injection Hparse as <-.
  apply parseUnitProjection_node in Hunit as (Hname & Hmap & _).
  assert (Hnone : projectionName (setProjection n1 comp) = None).
  { rewrite projectionName_entry. cbn [setProjection projectionNameMap].
    replace (getName (setProjection n1 comp) "projection") with (getName n "projection")
      by (symmetry; apply getName_name; exact Hname).
    rewrite Hmap. apply NameMap_has_false in Hhas as [Hown _]. exact Hown. }
  split; [exact Hnone | ].
  apply GeoPoint_parseAll_unnamed. left. exact Hnone.
Qed.

Lemma unregistered_projection_name_builds_no_geopoint_witness :
  let m := UnitModel (Samples.emptyNode "layer_2") Samples.pointSpec in
  (∃ c, projection (node (Samples.parsed m)) = Some c ∧ merged c = false)
  ∧ projectionName (node (Samples.parsed m)) = None
  ∧ GeoPoint.parseAll (OtherNode "source") (node (Samples.parsed m)) Samples.pointSpec
    = OtherNode "source".
Proof.
  intros m. split.
  - eexists. split; [vm_compute; reflexivity | reflexivity].
  - apply (unregistered_projection_name_builds_no_geopoint (OtherNode "source")
             (Samples.emptyNode "layer_2") (node (Samples.parsed m)) Samples.pointSpec).
    + vm_compute. reflexivity.
    + vm_compute. reflexivity.
Defined.

(** X21: the entry a composite model assembles after a promotion carries
    the projection name of the composite, the name its children resolve
    to, together with the specified properties of the representative,
    provided these hold no name of their own. *)
Theorem promoted_entry_carries_composite_name (ty : CompositeType) (n : Node)
    (children children1 : list Model) (acc : ProjectionComponent) :
  children ≠ [] →
  parseChildren children = Ok children1 →
  mergableEvery None children1 = (Some acc, true) →
  specifiedProjection acc !! "name" = None →
  ∃ m', parseProjection (CompositeModel ty n children) = Ok m'
        ∧ ∀ entry, assembleProjectionForModel (node m') = Ok [entry] →
            entry !! "name" = Some (VStr (getName n "projection"))
            ∧ (∀ k v, specifiedProjection acc !! k = Some v → entry !! k = Some v).
Proof.
  intros Hne Hparse Hred Hnoname.
  pose proof (parseChildren_fresh children children1 Hparse) as [Hfresh _].
  eexists. split.
  - rewrite parseProjection_composite by exact Hne.
    rewrite Hparse. cbn [mbind result_bind].
    rewrite (mergeChildProjections_promotes n children1 acc Hfresh Hred). reflexivity.
  - cbn [node]. intros entry Hentry.
    set (mp := promotedComponent n acc children1) in *.
    assert (Hcombine : ∀ k v, Split.combine mp !! k = Some v → entry !! k = Some v).
    { unfold assembleProjectionForModel in Hentry.
      cbn [projection setProjection] in Hentry.
      change (merged mp) with false in Hentry. cbv iota in Hentry.
      destruct (data mp) as [ds | ].
      - destruct (size mp) as [refs | ]; [ | discriminate].
        destruct (sizeSignals refs) as [signals | e]; cbn [mbind result_bind] in Hentry;
          [ | discriminate].
        destruct (bool_decide _) in Hentry; [discriminate | ].
        injection Hentry as <-. intros k v Hk. apply lookup_union_Some_l, Hk.
      - injection Hentry as <-. intros k v Hk. apply lookup_union_Some_l, Hk. }
    split.
    + apply Hcombine. unfold Split.combine. subst mp. cbn.
      rewrite lookup_union_r by exact Hnoname. apply lookup_singleton_eq.
    + intros k v Hk. apply Hcombine. unfold Split.combine. subst mp. cbn.
      apply lookup_union_Some_l, Hk.
Qed.

Lemma promoted_entry_carries_composite_name_witness :
  ∃ m', parseProjection (Samples.layer Samples.mergingChildren) = Ok m'
        ∧ ∀ entry, assembleProjectionForModel (node m') = Ok [entry] →
            entry !! "name" = Some (VStr (getName (Samples.seededNode "") "projection"))
            ∧ (∀ k v, specifiedProjection
                        (Samples.rootComponent (Samples.parsed Samples.shapeChild)) !! k
                      = Some v → entry !! k = Some v).
Proof.
  apply (promoted_entry_carries_composite_name Layer (Samples.seededNode "")
           Samples.mergingChildren (map Samples.parsed Samples.mergingChildren)
           (Samples.rootComponent (Samples.parsed Samples.shapeChild))).
  - discriminate.
  - vm_compute. reflexivity.
  - vm_compute. reflexivity.
  - vm_compute. reflexivity.
Defined.

(** ** Lookups of the model and inherited names *)

(** X22: the keys under which a model reads its name maps, the projection
    key and the two layout size keys, end in the last letter of the word
    they are made from, which no name of a member of [Object.prototype]
    does.  So [get] never gives an inherited member there:
    [projectionName()] is the entry of the map under the projection key,
    or [undefined] when there is none, whether or not the component is
    live, and the size signal is the entry under the size key. *)
Theorem model_lookup_keys_are_own (n : Node) (u : UnitSpec) (t : LayoutSizeType) :
  let key := getName n "projection" in
  let sizeKey := getName n (match t with Width => "width" | Height => "height" end) in
  NameMap.inherited key = false
  ∧ NameMap.inherited sizeKey = false
  ∧ NameMap.get (projectionNameMap n) key = NameMap.Own <$> projectionName n
  ∧ projectionName n = projectionNameMap n !! key
  ∧ NameMap.has (projectionNameMap n) key
    = bool_decide (is_Some (projectionNameMap n !! key))
  ∧ NameMap.get (signalNameMap n) sizeKey = NameMap.Own <$> signalNameMap n !! sizeKey
  ∧ (facetWidthRef u = None → facetHeightRef u = None →
     getSizeSignalRef n u t = SizeSignal (signalNameMap n !! sizeKey)).
Proof.
  intros key sizeKey.
  pose proof (getName_projection_own n) as Hkey.
  pose proof (getName_size_own n t) as Hsize.
  fold key in Hkey. fold sizeKey in Hsize.
  split; [exact Hkey | ]. split; [exact Hsize | ].
  split.
  { rewrite projectionName_entry. fold key. unfold NameMap.get, NameMap.read.
    rewrite Hkey. destruct (projectionNameMap n !! key); reflexivity. }
  split; [apply projectionName_entry | ].
  split; [apply NameMap_has_own_key, Hkey | ].
  split.
  { unfold NameMap.get, NameMap.read. rewrite Hsize.
    destruct (signalNameMap n !! sizeKey); reflexivity. }
  intros Hw Hh. unfold getSizeSignalRef.
  replace (match t with Width => facetWidthRef u | Height => facetHeightRef u end)
    with (@None SizeRef) by (destruct t; congruence).
  rewrite NameMap_asString_get. reflexivity.
Qed.

Lemma model_lookup_keys_are_own_witness :
  let n := Samples.seededNode "layer_2" in
  getSizeSignalRef n Samples.pointSpec Width = SizeSignal (Some "width")
  ∧ projectionName n = Some "layer_2_projection"
  ∧ NameMap.get (projectionNameMap n) "layer_2_projection"
    = Some (NameMap.Own "layer_2_projection").
Proof.
  intros n.
  destruct (model_lookup_keys_are_own n Samples.pointSpec Width)
    as (_ & _ & Hget & Hname & _ & _ & Hsize).
  split; [rewrite Hsize by reflexivity; vm_compute; reflexivity | ].
  assert (Hn : projectionName n = Some "layer_2_projection").
  { rewrite Hname. vm_compute. reflexivity. }
  split; [exact Hn | ].
  rewrite Hn in Hget. replace "layer_2_projection" with (getName n "projection") at 1
    by (vm_compute; reflexivity).
  exact Hget.
Defined.
